(** * fpga_pico_loader / pico: stage 1 (UART echo test) and stage 3 (RAM loader)

    The two programs of [pico/stage1/uart_test.c] and
    [pico/stage3/bootloader.c] are embedded as interaction trees whose
    events are the statements that touch the outside world: calls into the
    pico-sdk and the store of a call's result through [program_memory].
    A small-step machine runs such a tree against a model of the board
    (receive queue of the UART, LED wave form, transmitted bytes, RAM),
    interleaved with the arrival of bytes on the serial line. *)

From Stdlib Require Import ZArith List Bool Lia.
From Stdlib Require Import Init.Byte Strings.Byte.
From ITree Require Import ITree ITreeFacts.
Import ListNotations.
Import ITreeNotations.
Local Open Scope Z_scope.
Local Open Scope itree_scope.

(* ===================================================================== *)
(** ** The pico-sdk calls made by the programs *)
(* ===================================================================== *)

(** [uart_inst_t *]: the two UART blocks of the RP2040. *)
Variant uart_inst : Type := uart0 | uart1.

(** [enum gpio_function]: only its name is used by the programs. *)
Variant gpio_function : Type :=
| GPIO_FUNC_XIP | GPIO_FUNC_SPI | GPIO_FUNC_UART | GPIO_FUNC_I2C
| GPIO_FUNC_PWM | GPIO_FUNC_SIO | GPIO_FUNC_PIO0 | GPIO_FUNC_PIO1
| GPIO_FUNC_GPCK | GPIO_FUNC_USB | GPIO_FUNC_NULL.

(** [GPIO_OUT] is [true] in the sdk ([gpio_set_dir (gpio, bool out)]). *)
Definition GPIO_OUT : bool := true.

(** The calls, indexed by their result type.  [uart_init] returns the
    baud rate it achieved; both programs drop it, so it is typed [unit]. *)
Variant sdk : Type -> Type :=
| gpio_init (gpio : Z) : sdk unit
| gpio_set_dir (gpio : Z) (out : bool) : sdk unit
| gpio_set_function (gpio : Z) (fn : gpio_function) : sdk unit
| gpio_put (gpio : Z) (value : bool) : sdk unit
| uart_init (uart : uart_inst) (baudrate : Z) : sdk unit
| uart_is_readable (uart : uart_inst) : sdk bool
| uart_getc (uart : uart_inst) : sdk byte
| uart_putc (uart : uart_inst) (c : byte) : sdk unit
| sleep_ms (ms : Z) : sdk unit
| tight_loop_contents : sdk unit.

(** The statements of the programs that act on the board: a call (as an
    expression statement, a loop condition or an initialiser), and the
    assignment [*addr = f (...)] of a call's result to a byte of RAM,
    which C executes as one statement. *)
Variant stmtE : Type -> Type :=
| Call {T : Type} (f : sdk T) : stmtE T
| Assign (addr : Z) (f : sdk byte) : stmtE unit.

Definition call {T : Type} (f : sdk T) : itree stmtE T :=
  ITree.trigger (Call f).

(** [program_memory[i] = f (...)] for a [uint8_t *program_memory]. *)
Definition assign_at (program_memory i : Z) (f : sdk byte) : itree stmtE unit :=
  ITree.trigger (Assign (program_memory + i) f).

(** [for (int i = lo; i < hi; i++) body]: the counter stays within
    [lo .. hi], far from the range of [int], so [i++] is plain addition. *)
Definition for_ (lo hi : Z) (body : Z -> itree stmtE unit) : itree stmtE unit :=
  ITree.iter
    (fun i : Z => if i <? hi then body i ;; Ret (inl (i + 1)) else Ret (inr tt))
    lo.

(** [while (cond) body]. *)
Definition while_ (cond : itree stmtE bool) (body : itree stmtE unit)
  : itree stmtE unit :=
  ITree.iter
    (fun _ : unit =>
       b <- cond ;; if (b : bool) then body ;; Ret (inl tt) else Ret (inr tt))
    tt.

(* ===================================================================== *)
(** ** The board *)
(* ===================================================================== *)

(** What an observer of the status pin sees: the levels driven onto a pin
    and the pauses between them, in order. *)
Variant wave_event : Type :=
| Level (gpio : Z) (value : bool)
| Hold (ms : Z).

(** The serial peripheral is the byte stream of the data model: an ordered
    queue that loses nothing.  [rx] holds the bytes that have arrived and
    were not read yet, [polls] the answers [uart_is_readable] has given,
    [taken] the bytes read by [uart_getc] so far, [tx] the bytes handed to
    [uart_putc]; [ram] is the byte-addressed memory and [stores] the log of
    the writes made to it. *)
Record world : Type := World {
  rx : list byte;
  polls : list bool;
  taken : list byte;
  tx : list byte;
  wave : list wave_event;
  ram : Z -> byte;
  stores : list (Z * byte)
}.

Definition power_on (ram0 : Z -> byte) : world :=
  {| rx := []; polls := []; taken := []; tx := []; wave := [];
     ram := ram0; stores := [] |}.

Definition log_wave (ev : wave_event) (w : world) : world :=
  {| rx := rx w; polls := polls w; taken := taken w; tx := tx w;
     wave := wave w ++ [ev]; ram := ram w; stores := stores w |}.

Definition log_tx (c : byte) (w : world) : world :=
  {| rx := rx w; polls := polls w; taken := taken w; tx := tx w ++ [c];
     wave := wave w; ram := ram w; stores := stores w |}.

Definition log_poll (answer : bool) (w : world) : world :=
  {| rx := rx w; polls := polls w ++ [answer]; taken := taken w; tx := tx w;
     wave := wave w; ram := ram w; stores := stores w |}.

(** A byte reaches the receive queue of the peripheral. *)
Definition deliver (c : byte) (w : world) : world :=
  {| rx := rx w ++ [c]; polls := polls w; taken := taken w; tx := tx w;
     wave := wave w; ram := ram w; stores := stores w |}.

(** The oldest queued byte leaves the queue. *)
Definition dequeue (c : byte) (rest : list byte) (w : world) : world :=
  {| rx := rest; polls := polls w; taken := taken w ++ [c]; tx := tx w;
     wave := wave w; ram := ram w; stores := stores w |}.

Definition poke (addr : Z) (v : byte) (w : world) : world :=
  {| rx := rx w; polls := polls w; taken := taken w; tx := tx w;
     wave := wave w;
     ram := (fun a => if a =? addr then v else ram w a);
     stores := stores w ++ [(addr, v)] |}.

(** The effect of one sdk call on the board; [None] when the call cannot
    return yet.  The sdk is not part of the repository: each call has the
    effect its documentation gives it, as far as the two programs can
    observe it.  [gpio_put] drives the pin and [sleep_ms] lets time pass;
    [uart_is_readable] tells whether a byte is queued, without taking it;
    [uart_getc] takes the oldest queued byte and is the only call that
    blocks (a busy wait on [uart_is_readable] in the sdk); [uart_putc]
    transmits its byte; the initialisation calls and
    [tight_loop_contents] change nothing the programs observe. *)
Definition perform {T : Type} (f : sdk T) (w : world) : option (T * world) :=
  match f in sdk T0 return option (T0 * world) with
  | gpio_init _ => Some (tt, w)
  | gpio_set_dir _ _ => Some (tt, w)
  | gpio_set_function _ _ => Some (tt, w)
  | gpio_put gpio value => Some (tt, log_wave (Level gpio value) w)
  | uart_init _ _ => Some (tt, w)
  | uart_is_readable _ =>
      let answer := match rx w with [] => false | _ :: _ => true end in
      Some (answer, log_poll answer w)
  | uart_getc _ =>
      match rx w with
      | [] => None
      | c :: rest => Some (c, dequeue c rest w)
      end
  | uart_putc _ c => Some (tt, log_tx c w)
  | sleep_ms ms => Some (tt, log_wave (Hold ms) w)
  | tight_loop_contents => Some (tt, w)
  end.

Definition exec {T : Type} (s : stmtE T) (w : world) : option (T * world) :=
  match s in stmtE T0 return option (T0 * world) with
  | Call f => perform f w
  | Assign addr f =>
      match perform f w with
      | Some (v, w') => Some (tt, poke addr v w')
      | None => None
      end
  end.

(* ===================================================================== *)
(** ** The machine *)
(* ===================================================================== *)

(** A configuration: what is left of [main] and the state of the board.
    [main] returns [int]. *)
Record config : Type := Config {
  prog : itree stmtE Z;
  env : world
}.

(** One step of the program: a statement, or the jump back to the head of
    a loop.  A statement that cannot complete leaves the configuration as
    it is, and so does a program that has returned. *)
Definition step (c : config) : config :=
  match observe (prog c) with
  | RetF _ => c
  | TauF t => {| prog := t; env := env c |}
  | VisF s k =>
      match exec s (env c) with
      | Some (r, w) => {| prog := k r; env := w |}
      | None => c
      end
  end.

(** What happens next is either a step of the program or the arrival of a
    byte from the sender; a schedule is any interleaving of the two, so the
    sender may transmit at any moment and with any delay. *)
Variant action : Type :=
| Tick
| Arrive (c : byte).

Definition react (c : config) (a : action) : config :=
  match a with
  | Tick => step c
  | Arrive b => {| prog := prog c; env := deliver b (env c) |}
  end.

Definition run (sched : list action) (c : config) : config :=
  fold_left react sched c.

(** The byte stream a schedule presents, in the order sent. *)
Fixpoint arrivals (sched : list action) : list byte :=
  match sched with
  | [] => []
  | Tick :: rest => arrivals rest
  | Arrive b :: rest => b :: arrivals rest
  end.

Fixpoint ticks (sched : list action) : nat :=
  match sched with
  | [] => O
  | Tick :: rest => S (ticks rest)
  | Arrive _ :: rest => ticks rest
  end.

Definition boot (main : itree stmtE Z) (ram0 : Z -> byte) : config :=
  {| prog := main; env := power_on ram0 |}.

(* ===================================================================== *)
(** ** Control points *)
(* ===================================================================== *)

(** What a program does next at a control point: jump back to the head of
    a loop, or execute a statement and continue according to its result. *)
Variant move (P : Type) : Type :=
| Jump (p : P)
| Stmt {T : Type} (s : stmtE T) (k : T -> P).

Arguments Jump {P} p.
Arguments Stmt {P T} s k.

(** The machine on control points: the same board, the program counter in
    place of the remaining program. *)
Definition advance {P : Type} (next : P -> move P) (pw : P * world) : P * world :=
  match next (fst pw) with
  | Jump p' => (p', snd pw)
  | Stmt s k =>
      match exec s (snd pw) with
      | Some (r, w) => (k r, w)
      | None => pw
      end
  end.

Definition react_at {P : Type} (next : P -> move P) (pw : P * world) (a : action)
  : P * world :=
  match a with
  | Tick => advance next pw
  | Arrive b => (fst pw, deliver b (snd pw))
  end.

Definition run_at {P : Type} (next : P -> move P) (sched : list action)
  (pw : P * world) : P * world :=
  fold_left (react_at next) sched pw.

(** A configuration stands at control point [p] of a program when what is
    left of the program is the tree of [p]. *)
Definition stands_at {P : Type} (tree_of : P -> itree stmtE Z) (c : config)
  (p : P) : Prop :=
  prog c ≅ tree_of p.

(** Two configurations that differ only in how the remaining program is
    written. *)
Definition same (c1 c2 : config) : Prop :=
  prog c1 ≅ prog c2 /\ env c1 = env c2.

(** [next] describes the control flow of the trees [tree_of]. *)
Definition follows {P : Type} (tree_of : P -> itree stmtE Z)
  (next : P -> move P) (p : P) : Prop :=
  match next p with
  | Jump p' => tree_of p ≅ Tau (tree_of p')
  | Stmt s k => tree_of p ≅ Vis s (fun r => tree_of (k r))
  end.

(** An observation that tells remaining programs apart: is one of the next
    [n] steps a [sleep_ms (ms)], when the serial line stays silent?  [probe]
    gives the result a statement has on a silent line (nothing readable,
    a zero byte) and tells whether the statement is that call. *)
Definition probe (ms : Z) {T : Type} (s : stmtE T) : T * bool :=
  match s in stmtE T0 return T0 * bool with
  | Call f =>
      match f in sdk T1 return T1 * bool with
      | gpio_init _ => (tt, false)
      | gpio_set_dir _ _ => (tt, false)
      | gpio_set_function _ _ => (tt, false)
      | gpio_put _ _ => (tt, false)
      | uart_init _ _ => (tt, false)
      | uart_is_readable _ => (false, false)
      | uart_getc _ => (x00, false)
      | uart_putc _ _ => (tt, false)
      | sleep_ms d => (tt, d =? ms)
      | tight_loop_contents => (tt, false)
      end
  | Assign _ _ => (tt, false)
  end.

Fixpoint pauses_within (n : nat) (ms : Z) (t : itree stmtE Z) : bool :=
  match n with
  | O => false
  | S n' =>
      match observe t with
      | RetF _ => false
      | TauF t' => pauses_within n' ms t'
      | VisF s k =>
          snd (probe ms s) || pauses_within n' ms (k (fst (probe ms s)))
      end
  end.

(** The same observation made on control points. *)
Fixpoint pauses_at {P : Type} (next : P -> move P) (n : nat) (ms : Z) (p : P)
  : bool :=
  match n with
  | O => false
  | S n' =>
      match next p with
      | Jump p' => pauses_at next n' ms p'
      | Stmt s k =>
          snd (probe ms s) || pauses_at next n' ms (k (fst (probe ms s)))
      end
  end.

(** A second observation: is the next statement, after at most [n] jumps,
    one of the receive loop (a poll of the UART, the body of a busy wait,
    the store of a received byte)? *)
Definition receive_stmt {T : Type} (s : stmtE T) : bool :=
  match s with
  | Call f =>
      match f with
      | uart_is_readable _ => true
      | tight_loop_contents => true
      | _ => false
      end
  | Assign _ _ => true
  end.

Fixpoint awaits (n : nat) (t : itree stmtE Z) : bool :=
  match n with
  | O => false
  | S n' =>
      match observe t with
      | RetF _ => false
      | TauF t' => awaits n' t'
      | VisF s _ => receive_stmt s
      end
  end.

(** The same observation made on control points. *)
Fixpoint awaits_at {P : Type} (next : P -> move P) (n : nat) (p : P) : bool :=
  match n with
  | O => false
  | S n' =>
      match next p with
      | Jump p' => awaits_at next n' p'
      | Stmt s _ => receive_stmt s
      end
  end.

(* ===================================================================== *)
(** ** Blink patterns and wave forms *)
(* ===================================================================== *)

(** The four calls both programs start with (LED, then UART). *)
Variant setup_pos : Type := InitLed | DirLed | InitUart | FuncRx.

(** The four statements of one blink period. *)
Variant blink_pos : Type := LedOn | HoldOn | LedOff | HoldOff.

(** One blink period of [gpio] from statement [b] on. *)
Definition blink_from (gpio ms : Z) (b : blink_pos) : itree stmtE unit :=
  match b with
  | LedOn =>
      call (gpio_put gpio true) ;; call (sleep_ms ms) ;;
      call (gpio_put gpio false) ;; call (sleep_ms ms)
  | HoldOn =>
      call (sleep_ms ms) ;; call (gpio_put gpio false) ;; call (sleep_ms ms)
  | LedOff => call (gpio_put gpio false) ;; call (sleep_ms ms)
  | HoldOff => call (sleep_ms ms)
  end.

(** The wave form of [n] full blink periods, and of the part of a period
    that precedes statement [b]. *)
Fixpoint periods (gpio ms : Z) (n : nat) : list wave_event :=
  match n with
  | O => []
  | S n' =>
      [Level gpio true; Hold ms; Level gpio false; Hold ms]
        ++ periods gpio ms n'
  end.

Definition period_before (gpio ms : Z) (b : blink_pos) : list wave_event :=
  match b with
  | LedOn => []
  | HoldOn => [Level gpio true]
  | LedOff => [Level gpio true; Hold ms]
  | HoldOff => [Level gpio true; Hold ms; Level gpio false]
  end.

(** The level of [gpio] after the wave form [w], when it was [level]
    before. *)
Fixpoint pin_level (gpio : Z) (level : bool) (w : list wave_event) : bool :=
  match w with
  | [] => level
  | Level g v :: rest => pin_level gpio (if g =? gpio then v else level) rest
  | Hold _ :: rest => pin_level gpio level rest
  end.

(** The number of writes in [w] that change the level of [gpio], when it
    was [level] before. *)
Fixpoint flips (gpio : Z) (level : bool) (w : list wave_event) : nat :=
  match w with
  | [] => O
  | Level g v :: rest =>
      if g =? gpio
      then ((if Bool.eqb v level then 0 else 1) + flips gpio v rest)%nat
      else flips gpio level rest
  | Hold _ :: rest => flips gpio level rest
  end.

(** [n] writes of alternating level to [gpio], the first one [negb level]. *)
Fixpoint toggles (gpio : Z) (level : bool) (n : nat) : list wave_event :=
  match n with
  | O => []
  | S n' => Level gpio (negb level) :: toggles gpio (negb level) n'
  end.

(** The number of positive answers among the answers of
    [uart_is_readable]. *)
Definition granted (answers : list bool) : nat :=
  length (filter (fun b : bool => b) answers).

(** [l1] is an initial segment of [l2]. *)
Definition prefix {A : Type} (l1 l2 : list A) : Prop :=
  exists rest, l2 = l1 ++ rest.


(* ===================================================================== *)
(** ** pico/stage1/uart_test.c *)
(* ===================================================================== *)

Module Stage1.

Definition UART_ID : uart_inst := uart0.
Definition BAUD_RATE : Z := 115200.
Definition UART_RX_PIN : Z := 0.
Definition LED_PIN : Z := 25.

(** [int main ()], lines 19-52.  [led_state] is the loop-carried local of
    the [while (1)] loop, which returns nothing: the [return 0] after it is
    never reached. *)
Definition main : itree stmtE Z :=
  call (gpio_init LED_PIN) ;;
  call (gpio_set_dir LED_PIN GPIO_OUT) ;;
  call (uart_init UART_ID BAUD_RATE) ;;
  call (gpio_set_function UART_RX_PIN GPIO_FUNC_UART) ;;
  for_ 0 3 (fun i =>
    call (gpio_put LED_PIN true) ;;
    call (sleep_ms 100) ;;
    call (gpio_put LED_PIN false) ;;
    call (sleep_ms 100)) ;;
  ITree.iter (R := void) (fun led_state : bool =>
    readable <- call (uart_is_readable UART_ID) ;;
    if (readable : bool) then
      byte <- call (uart_getc UART_ID) ;;
      let led_state := negb led_state in
      call (gpio_put LED_PIN led_state) ;;
      call (uart_putc UART_ID byte) ;;
      Ret (inl led_state)
    else
      Ret (inl led_state)) false ;;
  Ret 0.

(** *** The control points of [main] *)

(** The places of [main] between two steps, with the values of its
    variables.  [n] counts the bytes read so far; it is not a variable of
    the program.  [next] is the control flow of [main] as the source gives
    it; that the tree of [main] unfolds along it is proved below
    ([stage1_follows]). *)
Variant point : Type :=
| Setup (k : setup_pos)                   (* lines 21, 22, 25, 26 *)
| Ready (i : Z) (b : blink_pos)           (* lines 30-33, iteration [i] *)
| ReadyBack (i : Z)                       (* [i++], back to line 29 *)
| Poll (n : nat) (led_state : bool)       (* line 39 *)
| Getc (n : nat) (led_state : bool)       (* line 40 *)
| Toggle (n : nat) (led_state : bool) (byte : byte)   (* line 44 *)
| Echo (n : nat) (led_state : bool) (byte : byte)     (* line 47 *)
| Back (n : nat) (led_state : bool).      (* back to line 38 *)

Definition next (p : point) : move point :=
  match p with
  | Setup InitLed =>
      Stmt (Call (gpio_init LED_PIN)) (fun _ => Setup DirLed)
  | Setup DirLed =>
      Stmt (Call (gpio_set_dir LED_PIN GPIO_OUT)) (fun _ => Setup InitUart)
  | Setup InitUart =>
      Stmt (Call (uart_init UART_ID BAUD_RATE)) (fun _ => Setup FuncRx)
  | Setup FuncRx =>
      Stmt (Call (gpio_set_function UART_RX_PIN GPIO_FUNC_UART))
        (fun _ => Ready 0 LedOn)
  | Ready i LedOn =>
      Stmt (Call (gpio_put LED_PIN true)) (fun _ => Ready i HoldOn)
  | Ready i HoldOn => Stmt (Call (sleep_ms 100)) (fun _ => Ready i LedOff)
  | Ready i LedOff =>
      Stmt (Call (gpio_put LED_PIN false)) (fun _ => Ready i HoldOff)
  | Ready i HoldOff => Stmt (Call (sleep_ms 100)) (fun _ => ReadyBack i)
  | ReadyBack i =>
      Jump (if i + 1 <? 3 then Ready (i + 1) LedOn else Poll 0 false)
  | Poll n led_state =>
      Stmt (Call (uart_is_readable UART_ID))
        (fun readable : bool =>
           if readable then Getc n led_state else Back n led_state)
  | Getc n led_state =>
      Stmt (Call (uart_getc UART_ID))
        (fun byte => Toggle (S n) (negb led_state) byte)
  | Toggle n led_state byte =>
      Stmt (Call (gpio_put LED_PIN led_state)) (fun _ => Echo n led_state byte)
  | Echo n led_state byte =>
      Stmt (Call (uart_putc UART_ID byte)) (fun _ => Back n led_state)
  | Back n led_state => Jump (Poll n led_state)
  end.

(** The part of [main] that is left at each control point. *)
Definition ready_body : Z -> itree stmtE unit :=
  fun _ => blink_from LED_PIN 100 LedOn.

Definition echo_body (led_state : bool) : itree stmtE (bool + void) :=
  readable <- call (uart_is_readable UART_ID) ;;
  if (readable : bool) then
    byte <- call (uart_getc UART_ID) ;;
    let led_state := negb led_state in
    call (gpio_put LED_PIN led_state) ;;
    call (uart_putc UART_ID byte) ;;
    Ret (inl led_state)
  else
    Ret (inl led_state).

Definition echo_loop (led_state : bool) : itree stmtE void :=
  ITree.iter echo_body led_state.

Definition echo_again (lr : bool + void) : itree stmtE void :=
  match lr with
  | inl led_state => Tau (echo_loop led_state)
  | inr r => Ret r
  end.

Definition from_loop (led_state : bool) : itree stmtE Z :=
  echo_loop led_state ;; Ret 0.

Definition from_ready (i : Z) : itree stmtE Z :=
  for_ i 3 ready_body ;; from_loop false.

Definition tree_of (p : point) : itree stmtE Z :=
  match p with
  | Setup InitLed => main
  | Setup DirLed =>
      call (gpio_set_dir LED_PIN GPIO_OUT) ;;
      call (uart_init UART_ID BAUD_RATE) ;;
      call (gpio_set_function UART_RX_PIN GPIO_FUNC_UART) ;;
      from_ready 0
  | Setup InitUart =>
      call (uart_init UART_ID BAUD_RATE) ;;
      call (gpio_set_function UART_RX_PIN GPIO_FUNC_UART) ;;
      from_ready 0
  | Setup FuncRx =>
      call (gpio_set_function UART_RX_PIN GPIO_FUNC_UART) ;;
      from_ready 0
  | Ready i b =>
      (blink_from LED_PIN 100 b ;; Tau (for_ (i + 1) 3 ready_body)) ;;
      from_loop false
  | ReadyBack i => Tau (from_ready (i + 1))
  | Poll _ led_state => from_loop led_state
  | Getc _ led_state =>
      ((byte <- call (uart_getc UART_ID) ;;
        call (gpio_put LED_PIN (negb led_state)) ;;
        call (uart_putc UART_ID byte) ;;
        Ret (inl (negb led_state))) >>= echo_again) ;;
      Ret 0
  | Toggle _ led_state byte =>
      ((call (gpio_put LED_PIN led_state) ;;
        call (uart_putc UART_ID byte) ;;
        Ret (inl led_state)) >>= echo_again) ;;
      Ret 0
  | Echo _ led_state byte =>
      ((call (uart_putc UART_ID byte) ;; Ret (inl led_state)) >>= echo_again) ;;
      Ret 0
  | Back _ led_state => Tau (from_loop led_state)
  end.

(** The bytes the loop has read when it stands at [p]. *)
Definition count (p : point) : nat :=
  match p with
  | Setup _ | Ready _ _ | ReadyBack _ => O
  | Poll n _ | Getc n _ | Toggle n _ _ | Echo n _ _ | Back n _ => n
  end.

(** The main loop (lines 38-49) has been entered: the jump back after the
    last blink leaves the ready loop. *)
Definition in_loop (p : point) : bool :=
  match p with
  | Setup _ | Ready _ _ => false
  | ReadyBack i => negb (i + 1 <? 3)
  | _ => true
  end.

(** *** What holds at each control point *)

(** The loop counter is within its bounds; [led_state] is the parity of
    the number of bytes read; a byte is in hand only after a read. *)
Definition wf (p : point) : Prop :=
  match p with
  | Setup _ => True
  | Ready i _ | ReadyBack i => 0 <= i < 3
  | Poll n led_state | Getc n led_state | Back n led_state =>
      led_state = Nat.odd n
  | Toggle n led_state _ | Echo n led_state _ =>
      led_state = Nat.odd n /\ (0 < n)%nat
  end.

(** The wave form when the main loop is entered: three periods. *)
Definition ready_wave : list wave_event := periods LED_PIN 100 3.

(** The wave form produced when the program stands at [p]. *)
Definition wave_of (p : point) : list wave_event :=
  match p with
  | Setup _ => []
  | Ready i b =>
      periods LED_PIN 100 (Z.to_nat i) ++ period_before LED_PIN 100 b
  | ReadyBack i => periods LED_PIN 100 (S (Z.to_nat i))
  | Poll n _ | Getc n _ | Echo n _ _ | Back n _ =>
      ready_wave ++ toggles LED_PIN false n
  | Toggle n _ _ => ready_wave ++ toggles LED_PIN false (Nat.pred n)
  end.

(** A positive answer of [uart_is_readable] has been given at line 39 and
    the byte it announced is not read yet. *)
Definition announced (p : point) : nat :=
  match p with
  | Getc _ _ => 1%nat
  | _ => O
  end.

(** The byte that has been read and is not echoed yet. *)
Definition in_hand (p : point) : list byte :=
  match p with
  | Toggle _ _ byte | Echo _ _ byte => [byte]
  | _ => []
  end.

(** The state of the board when the program stands at [p], the memory was
    [ram0] at power on and the sender has sent [sent] so far. *)
Record invariant (ram0 : Z -> byte) (sent : list byte) (p : point) (w : world)
  : Prop := Invariant {
  inv_wf : wf p;
  inv_sent : sent = taken w ++ rx w;
  inv_count : length (taken w) = count p;
  inv_polls : granted (polls w) = (count p + announced p)%nat;
  inv_queued : announced p = 1%nat -> rx w <> [];
  inv_quiet : in_loop p = false -> polls w = [];
  inv_tx : taken w = tx w ++ in_hand p;
  inv_wave : wave w = wave_of p;
  inv_stores : stores w = [];
  inv_ram : ram w = ram0
}.

(** Every byte that has arrived is echoed and the loop is idle. *)
Definition idle (p : point) (w : world) : bool :=
  in_loop p
  && match rx w with [] => true | _ :: _ => false end
  && match in_hand p with [] => true | _ :: _ => false end.

(** The steps still to make before the main loop is entered. *)
Definition setup_left (k : setup_pos) : Z :=
  match k with InitLed => 4 | DirLed => 3 | InitUart => 2 | FuncRx => 1 end.

Definition blink_left (b : blink_pos) : Z :=
  match b with LedOn => 4 | HoldOn => 3 | LedOff => 2 | HoldOff => 1 end.

Definition lead (p : point) : Z :=
  match p with
  | Setup k => 15 + setup_left k
  | Ready i b => 5 * (2 - i) + blink_left b + 1
  | ReadyBack i => 5 * (2 - i) + 1
  | _ => 0
  end.

(** Steps after which the main loop is reached from power on. *)
Definition lead_steps : nat := 19.

(** The steps still to make before the loop is idle, when no further byte
    arrives. *)
Definition rank (p : point) (w : world) : Z :=
  lead p + 5 * Z.of_nat (length (rx w))
  + match p with
    | Getc _ _ => -1
    | Toggle _ _ _ => 3
    | Echo _ _ _ => 2
    | Back _ _ => 1
    | _ => 0
    end.

(** Steps after which [n] bytes are echoed, from any moment on. *)
Definition enough (n : nat) : nat := 19 + 5 * n.

(** The control point and the board at power on. *)
Definition start (ram0 : Z -> byte) : point * world :=
  (Setup InitLed, power_on ram0).

(** The main loop is running. *)
Definition in_main_loop (c : config) : Prop :=
  exists p, wf p /\ in_loop p = true /\ stands_at tree_of c p.

End Stage1.

(* ===================================================================== *)
(** ** pico/stage3/bootloader.c *)
(* ===================================================================== *)

Module Stage3.

Definition UART_ID : uart_inst := uart0.
Definition BAUD_RATE : Z := 115200.
Definition UART_RX_PIN : Z := 0.
Definition LED_PIN : Z := 25.

Definition PROGRAM_SIZE : Z := 256.
Definition RAM_LOAD_ADDRESS : Z := 0x20001000.

(** [int main ()], lines 24-68.  The last loop never ends: the [return 0]
    after it is never reached. *)
Definition main : itree stmtE Z :=
  call (gpio_init LED_PIN) ;;
  call (gpio_set_dir LED_PIN GPIO_OUT) ;;
  call (uart_init UART_ID BAUD_RATE) ;;
  call (gpio_set_function UART_RX_PIN GPIO_FUNC_UART) ;;
  for_ 0 5 (fun i =>
    call (gpio_put LED_PIN true) ;;
    call (sleep_ms 50) ;;
    call (gpio_put LED_PIN false) ;;
    call (sleep_ms 50)) ;;
  call (sleep_ms 200) ;;
  call (gpio_put LED_PIN true) ;;
  let program_memory := RAM_LOAD_ADDRESS in
  for_ 0 PROGRAM_SIZE (fun i =>
    while_ (readable <- call (uart_is_readable UART_ID) ;; Ret (negb readable))
      (call tight_loop_contents) ;;
    assign_at program_memory i (uart_getc UART_ID)) ;;
  ITree.forever (S := void) (
    call (gpio_put LED_PIN true) ;;
    call (sleep_ms 500) ;;
    call (gpio_put LED_PIN false) ;;
    call (sleep_ms 500)) ;;
  Ret 0.

(** The destination buffer: the [PROGRAM_SIZE] bytes of RAM from
    [RAM_LOAD_ADDRESS] on. *)
Definition buffer (w : world) : list byte :=
  List.map (fun k => ram w (RAM_LOAD_ADDRESS + Z.of_nat k))
    (seq 0 (Z.to_nat PROGRAM_SIZE)).

(** *** The control points of [main] *)

(** The places of [main] between two steps, with the values of its loop
    counters.  [n] counts the blink periods completed in the last loop; it
    is not a variable of the program.  [next] is the control flow of
    [main] as the source gives it; that the tree of [main] unfolds along
    it is proved below ([stage3_follows]). *)
Variant point : Type :=
| Setup (k : setup_pos)                   (* lines 26, 27, 30, 31 *)
| Ready (i : Z) (b : blink_pos)           (* lines 35-38, iteration [i] *)
| ReadyBack (i : Z)                       (* [i++], back to line 34 *)
| Pause                                   (* line 41 *)
| Solid                                   (* line 44 *)
| Poll (i : Z)                            (* line 51, iteration [i] *)
| Spin (i : Z)                            (* line 52 *)
| PollBack (i : Z)                        (* back to line 51 *)
| Fetch (i : Z)                           (* line 56 *)
| FetchBack (i : Z)                       (* [i++], back to line 49 *)
| Blink (n : nat) (b : blink_pos)         (* lines 61-64 *)
| BlinkBack (n : nat).                    (* back to line 60 *)

Definition next (p : point) : move point :=
  match p with
  | Setup InitLed =>
      Stmt (Call (gpio_init LED_PIN)) (fun _ => Setup DirLed)
  | Setup DirLed =>
      Stmt (Call (gpio_set_dir LED_PIN GPIO_OUT)) (fun _ => Setup InitUart)
  | Setup InitUart =>
      Stmt (Call (uart_init UART_ID BAUD_RATE)) (fun _ => Setup FuncRx)
  | Setup FuncRx =>
      Stmt (Call (gpio_set_function UART_RX_PIN GPIO_FUNC_UART))
        (fun _ => Ready 0 LedOn)
  | Ready i LedOn =>
      Stmt (Call (gpio_put LED_PIN true)) (fun _ => Ready i HoldOn)
  | Ready i HoldOn => Stmt (Call (sleep_ms 50)) (fun _ => Ready i LedOff)
  | Ready i LedOff =>
      Stmt (Call (gpio_put LED_PIN false)) (fun _ => Ready i HoldOff)
  | Ready i HoldOff => Stmt (Call (sleep_ms 50)) (fun _ => ReadyBack i)
  | ReadyBack i => Jump (if i + 1 <? 5 then Ready (i + 1) LedOn else Pause)
  | Pause => Stmt (Call (sleep_ms 200)) (fun _ => Solid)
  | Solid => Stmt (Call (gpio_put LED_PIN true)) (fun _ => Poll 0)
  | Poll i =>
      Stmt (Call (uart_is_readable UART_ID))
        (fun readable : bool => if negb readable then Spin i else Fetch i)
  | Spin i => Stmt (Call tight_loop_contents) (fun _ => PollBack i)
  | PollBack i => Jump (Poll i)
  | Fetch i =>
      Stmt (Assign (RAM_LOAD_ADDRESS + i) (uart_getc UART_ID))
        (fun _ => FetchBack i)
  | FetchBack i =>
      Jump (if i + 1 <? PROGRAM_SIZE then Poll (i + 1) else Blink 0 LedOn)
  | Blink n LedOn =>
      Stmt (Call (gpio_put LED_PIN true)) (fun _ => Blink n HoldOn)
  | Blink n HoldOn => Stmt (Call (sleep_ms 500)) (fun _ => Blink n LedOff)
  | Blink n LedOff =>
      Stmt (Call (gpio_put LED_PIN false)) (fun _ => Blink n HoldOff)
  | Blink n HoldOff => Stmt (Call (sleep_ms 500)) (fun _ => BlinkBack n)
  | BlinkBack n => Jump (Blink (S n) LedOn)
  end.

(** The part of [main] that is left at each control point. *)
Definition ready_body : Z -> itree stmtE unit :=
  fun _ => blink_from LED_PIN 50 LedOn.

Definition wait_readable : itree stmtE unit :=
  while_ (readable <- call (uart_is_readable UART_ID) ;; Ret (negb readable))
    (call tight_loop_contents).

Definition receive_body (i : Z) : itree stmtE unit :=
  wait_readable ;; assign_at RAM_LOAD_ADDRESS i (uart_getc UART_ID).

Definition slow_blink : itree stmtE void :=
  ITree.forever (blink_from LED_PIN 500 LedOn).

Definition from_blink : itree stmtE Z := slow_blink ;; Ret 0.

Definition from_receive (i : Z) : itree stmtE Z :=
  for_ i PROGRAM_SIZE receive_body ;; from_blink.

Definition from_solid : itree stmtE Z :=
  call (gpio_put LED_PIN true) ;; from_receive 0.

Definition from_pause : itree stmtE Z :=
  call (sleep_ms 200) ;; from_solid.

Definition from_ready (i : Z) : itree stmtE Z :=
  for_ i 5 ready_body ;; from_pause.

Definition from_poll (i : Z) : itree stmtE Z :=
  (receive_body i ;; Tau (for_ (i + 1) PROGRAM_SIZE receive_body)) ;;
  from_blink.

Definition tree_of (p : point) : itree stmtE Z :=
  match p with
  | Setup InitLed => main
  | Setup DirLed =>
      call (gpio_set_dir LED_PIN GPIO_OUT) ;;
      call (uart_init UART_ID BAUD_RATE) ;;
      call (gpio_set_function UART_RX_PIN GPIO_FUNC_UART) ;;
      from_ready 0
  | Setup InitUart =>
      call (uart_init UART_ID BAUD_RATE) ;;
      call (gpio_set_function UART_RX_PIN GPIO_FUNC_UART) ;;
      from_ready 0
  | Setup FuncRx =>
      call (gpio_set_function UART_RX_PIN GPIO_FUNC_UART) ;;
      from_ready 0
  | Ready i b =>
      (blink_from LED_PIN 50 b ;; Tau (for_ (i + 1) 5 ready_body)) ;;
      from_pause
  | ReadyBack i => Tau (from_ready (i + 1))
  | Pause => from_pause
  | Solid => from_solid
  | Poll i => from_poll i
  | Spin i =>
      ((((call tight_loop_contents ;; Tau wait_readable) ;;
         assign_at RAM_LOAD_ADDRESS i (uart_getc UART_ID)) ;;
        Tau (for_ (i + 1) PROGRAM_SIZE receive_body)) ;;
       from_blink)
  | PollBack i => Tau (from_poll i)
  | Fetch i =>
      (assign_at RAM_LOAD_ADDRESS i (uart_getc UART_ID) ;;
       Tau (for_ (i + 1) PROGRAM_SIZE receive_body)) ;;
      from_blink
  | FetchBack i => Tau (from_receive (i + 1))
  | Blink _ b => (blink_from LED_PIN 500 b ;; Tau slow_blink) ;; Ret 0
  | BlinkBack _ => Tau from_blink
  end.

(** The bytes the receive loop has stored when it stands at [p]. *)
Definition count (p : point) : nat :=
  match p with
  | Setup _ | Ready _ _ | ReadyBack _ | Pause | Solid => O
  | Poll i | Spin i | PollBack i | Fetch i => Z.to_nat i
  | FetchBack i => S (Z.to_nat i)
  | Blink _ _ | BlinkBack _ => Z.to_nat PROGRAM_SIZE
  end.

(** The receive loop (lines 49-57) is running: the jump back after the
    last byte leaves the loop. *)
Definition receiving (p : point) : bool :=
  match p with
  | Poll _ | Spin _ | PollBack _ | Fetch _ => true
  | FetchBack i => i + 1 <? PROGRAM_SIZE
  | _ => false
  end.

(** The receive loop has been left. *)
Definition finished (p : point) : bool :=
  match p with
  | FetchBack i => negb (i + 1 <? PROGRAM_SIZE)
  | Blink _ _ | BlinkBack _ => true
  | _ => false
  end.

(** The success loop (lines 60-65) has been entered. *)
Definition blinking (p : point) : bool :=
  match p with
  | Blink _ _ | BlinkBack _ => true
  | _ => false
  end.

(** The receive loop has been entered. *)
Definition started (p : point) : bool := receiving p || finished p.

(** *** What holds at each control point *)

(** The loop counters are within their bounds. *)
Definition wf (p : point) : Prop :=
  match p with
  | Ready i _ | ReadyBack i => 0 <= i < 5
  | Poll i | Spin i | PollBack i | Fetch i | FetchBack i =>
      0 <= i < PROGRAM_SIZE
  | _ => True
  end.

(** The wave form when the receive loop is entered: five fast periods,
    the pause of line 41, and the LED switched on at line 44. *)
Definition solid_wave : list wave_event :=
  periods LED_PIN 50 5 ++ [Hold 200; Level LED_PIN true].

(** The wave form produced when the program stands at [p]. *)
Definition wave_of (p : point) : list wave_event :=
  match p with
  | Setup _ => []
  | Ready i b => periods LED_PIN 50 (Z.to_nat i) ++ period_before LED_PIN 50 b
  | ReadyBack i => periods LED_PIN 50 (S (Z.to_nat i))
  | Pause => periods LED_PIN 50 5
  | Solid => periods LED_PIN 50 5 ++ [Hold 200]
  | Poll _ | Spin _ | PollBack _ | Fetch _ | FetchBack _ => solid_wave
  | Blink n b =>
      solid_wave ++ periods LED_PIN 500 n ++ period_before LED_PIN 500 b
  | BlinkBack n => solid_wave ++ periods LED_PIN 500 (S n)
  end.

(** A positive answer of [uart_is_readable] has been given at line 51 and
    the byte it announced is not read yet. *)
Definition announced (p : point) : nat :=
  match p with
  | Fetch _ => 1%nat
  | _ => O
  end.

(** The writes that storing [bytes] from [RAM_LOAD_ADDRESS] on makes, and
    the memory they leave. *)
Definition slots (bytes : list byte) : list (Z * byte) :=
  combine
    (List.map (fun k => RAM_LOAD_ADDRESS + Z.of_nat k) (seq 0 (length bytes)))
    bytes.

Definition loaded (ram0 : Z -> byte) (bytes : list byte) (a : Z) : byte :=
  if (RAM_LOAD_ADDRESS <=? a) && (a <? RAM_LOAD_ADDRESS + Z.of_nat (length bytes))
  then nth (Z.to_nat (a - RAM_LOAD_ADDRESS)) bytes x00
  else ram0 a.

(** The state of the board when the program stands at [p], the memory was
    [ram0] at power on and the sender has sent [sent] so far. *)
Record invariant (ram0 : Z -> byte) (sent : list byte) (p : point) (w : world)
  : Prop := Invariant {
  inv_wf : wf p;
  inv_sent : sent = taken w ++ rx w;
  inv_count : length (taken w) = count p;
  inv_polls : granted (polls w) = (count p + announced p)%nat;
  inv_queued : announced p = 1%nat -> rx w <> [];
  inv_quiet : started p = false -> polls w = [];
  inv_tx : tx w = [];
  inv_wave : wave w = wave_of p;
  inv_stores : stores w = slots (taken w);
  inv_ram : forall a, ram w a = loaded ram0 (taken w) a
}.

(** The steps still to make before the success loop is entered, when no
    byte has to be waited for. *)
Definition setup_left (k : setup_pos) : Z :=
  match k with InitLed => 4 | DirLed => 3 | InitUart => 2 | FuncRx => 1 end.

Definition blink_left (b : blink_pos) : Z :=
  match b with LedOn => 4 | HoldOn => 3 | LedOff => 2 | HoldOff => 1 end.

Definition rank (p : point) : Z :=
  match p with
  | Setup k => 795 + setup_left k
  | Ready i b => 771 + 5 * (4 - i) + blink_left b
  | ReadyBack i => 771 + 5 * (4 - i)
  | Pause => 770
  | Solid => 769
  | Spin i => 3 * (PROGRAM_SIZE - i) + 2
  | PollBack i => 3 * (PROGRAM_SIZE - i) + 1
  | Poll i => 3 * (PROGRAM_SIZE - i)
  | Fetch i => 3 * (PROGRAM_SIZE - i) - 1
  | FetchBack i => 3 * (PROGRAM_SIZE - i) - 2
  | Blink _ _ | BlinkBack _ => 0
  end.

(** Steps after which the success loop is reached from power on, once 256
    bytes have arrived. *)
Definition enough : nat := 799.

(** The steps still to make before the receive loop is entered. *)
Definition lead (p : point) : Z :=
  if started p then 0 else rank p - 3 * PROGRAM_SIZE.

(** Steps after which the receive loop is reached from power on. *)
Definition lead_steps : nat := 31.

(** The steps made since the receive loop was left. *)
Definition beat (p : point) : nat :=
  match p with
  | Blink n LedOn => 1 + 5 * n
  | Blink n HoldOn => 2 + 5 * n
  | Blink n LedOff => 3 + 5 * n
  | Blink n HoldOff => 4 + 5 * n
  | BlinkBack n => 5 + 5 * n
  | _ => 0
  end.

(** The control point and the board at power on. *)
Definition start (ram0 : Z -> byte) : point * world :=
  (Setup InitLed, power_on ram0).

(** A program image to send: the 256 byte values in ascending order. *)
Definition sample_program : list byte :=
  List.map
    (fun k => match Byte.of_nat k with Some b => b | None => x00 end)
    (seq 0 256).

(** The sender transmits it at once, before the loader has made a step. *)
Definition sample_schedule : list action := List.map Arrive sample_program.

(** The phases of a configuration. *)
Definition in_receive (c : config) : Prop :=
  exists p, wf p /\ receiving p = true /\ stands_at tree_of c p.

Definition succeeded (c : config) : Prop :=
  exists p, blinking p = true /\ stands_at tree_of c p.

End Stage3.

(* ===================================================================== *)
(** ** Further observations of a run *)
(* ===================================================================== *)

(** [main] has returned. *)
Definition returned (c : config) : bool :=
  match observe (prog c) with
  | RetF _ => true
  | _ => false
  end.

(** The next statement of the program cannot complete: it is a
    [uart_getc] and nothing is queued. *)
Definition blocked (c : config) : bool :=
  match observe (prog c) with
  | VisF s _ =>
      match exec s (env c) with
      | Some _ => false
      | None => true
      end
  | _ => false
  end.

(** The time the program has slept so far, in ms. *)
Fixpoint held (w : list wave_event) : Z :=
  match w with
  | [] => 0
  | Level _ _ :: rest => held rest
  | Hold ms :: rest => ms + held rest
  end.

(** The steps the loader still has to make before the receive queue is
    empty, when no further byte arrives and no more than 256 were sent. *)
Definition drain (p : Stage3.point) (w : world) : Z :=
  Stage3.lead p + 3 * Z.of_nat (length (rx w))
  + match p with
    | Stage3.Spin _ => 2
    | Stage3.PollBack _ => 1
    | Stage3.Fetch _ => -1
    | Stage3.FetchBack _ => 1
    | _ => 0
    end.

(** Steps after which [n] bytes are stored, from any moment on. *)
Definition drain_steps (n : nat) : nat := 33 + 3 * n.

(** The receive loop has been entered and every byte that has arrived is
    stored. *)
Definition drained (p : Stage3.point) (w : world) : bool :=
  Stage3.started p && match rx w with [] => true | _ :: _ => false end.

(* ===================================================================== *)
(** ** The programs at work *)
(* ===================================================================== *)

(** The echo test: a byte sent during the ready blinks and one sent later
    come back in order, and the LED is switched on, then off. *)
Example echo_two_bytes :
  let c := run (Arrive x41 :: repeat Tick 25 ++ Arrive x42 :: repeat Tick 6)
             (boot Stage1.main (fun _ => x00)) in
  tx (env c) = [x41; x42]
  /\ wave (env c)
     = periods Stage1.LED_PIN 100 3
         ++ [Level Stage1.LED_PIN true; Level Stage1.LED_PIN false]
  /\ polls (env c) = [true; false; true].
Proof. vm_compute. repeat split. Qed.

(** The loader with three bytes: they are stored at the first three
    addresses, and the LED stays on while the loader polls. *)
Example loader_three_bytes :
  let c := run (Arrive x41 :: Arrive x42 :: repeat Tick 38 ++ [Arrive x43; Tick])
             (boot Stage3.main (fun _ => x00)) in
  stores (env c)
  = [(0x20001000, x41); (0x20001001, x42)]
  /\ rx (env c) = [x43]
  /\ polls (env c) = [true; true; false]
  /\ wave (env c) = Stage3.solid_wave.
Proof. vm_compute. repeat split. Qed.

(** The loader with a whole image: the buffer holds it after 799 steps,
    and the slow blink begins. *)
Example loader_whole_image :
  let c := run (Stage3.sample_schedule ++ repeat Tick 805)
             (boot Stage3.main (fun _ => xff)) in
  Stage3.buffer (env c) = Stage3.sample_program
  /\ length (stores (env c)) = 256%nat
  /\ wave (env c)
     = Stage3.solid_wave
         ++ [Level Stage3.LED_PIN true; Hold 500; Level Stage3.LED_PIN false;
             Hold 500; Level Stage3.LED_PIN true].
Proof. vm_compute. repeat split. Qed.
(* ===================================================================== *)
(** ** The machine follows the control points *)
(* ===================================================================== *)

(** A step does not depend on how the remaining program is written. *)
Lemma step_same c1 c2 : same c1 c2 -> same (step c1) (step c2).
Proof.
  intros [Hp He]. pose proof Hp as Hp0. unfold step. rewrite <- He.
  rewrite (itree_eta (prog c2)) in Hp.
  destruct (observe (prog c2)) as [r | t | T s k].
  - apply eqitree_inv_Ret_r in Hp. rewrite Hp. split; auto.
  - apply eqitree_inv_Tau_r in Hp. destruct Hp as [t0 [-> Ht]]. split; auto.
  - apply eqitree_inv_Vis_r in Hp. destruct Hp as [k' [-> Hk]].
    destruct (exec s (env c1)) as [[r w]|]; split; cbn; auto.
Qed.

Lemma unfold_for lo hi body :
  for_ lo hi body
  ≅ if lo <? hi then body lo ;; Tau (for_ (lo + 1) hi body) else Ret tt.
Proof.
  unfold for_ at 1. rewrite unfold_iter.
  destruct (lo <? hi).
  - rewrite bind_bind. setoid_rewrite bind_ret_l. reflexivity.
  - rewrite bind_ret_l. reflexivity.
Qed.

Lemma unfold_while cond body :
  while_ cond body
  ≅ b <- cond ;; if (b : bool) then body ;; Tau (while_ cond body) else Ret tt.
Proof.
  unfold while_ at 1. rewrite unfold_iter, bind_bind.
  apply eqit_bind; [reflexivity|]. intros [].
  - rewrite bind_bind. setoid_rewrite bind_ret_l. reflexivity.
  - rewrite bind_ret_l. reflexivity.
Qed.

Lemma pauses_within_same n ms : forall t1 t2,
  t1 ≅ t2 -> pauses_within n ms t1 = pauses_within n ms t2.
Proof.
  induction n as [|n IH]; intros t1 t2 H; cbn [pauses_within].
  - reflexivity.
  - rewrite (itree_eta t2) in H.
    destruct (observe t2) as [r | t | T s k].
    + apply eqitree_inv_Ret_r in H. rewrite H. reflexivity.
    + apply eqitree_inv_Tau_r in H. destruct H as [t0 [-> Ht]]. auto.
    + apply eqitree_inv_Vis_r in H. destruct H as [k' [-> Hk]].
      rewrite (IH _ _ (Hk (fst (probe ms s)))). reflexivity.
Qed.

Lemma awaits_same n : forall t1 t2, t1 ≅ t2 -> awaits n t1 = awaits n t2.
Proof.
  induction n as [|n IH]; intros t1 t2 H; cbn [awaits].
  - reflexivity.
  - rewrite (itree_eta t2) in H.
    destruct (observe t2) as [r | t | T s k].
    + apply eqitree_inv_Ret_r in H. rewrite H. reflexivity.
    + apply eqitree_inv_Tau_r in H. destruct H as [t0 [-> Ht]]. auto.
    + apply eqitree_inv_Vis_r in H. destruct H as [k' [-> Hk]]. reflexivity.
Qed.

Section Simulation.

Variable P : Type.
Variable tree_of : P -> itree stmtE Z.
Variable next : P -> move P.

Hypothesis next_ok : forall p, follows tree_of next p.

Lemma step_advance c p :
  stands_at tree_of c p ->
  stands_at tree_of (step c) (fst (advance next (p, env c)))
  /\ env (step c) = snd (advance next (p, env c)).
Proof.
  unfold stands_at, advance, step. intros H. cbn [fst snd].
  pose proof (next_ok p) as Hn. unfold follows in Hn.
  destruct (next p) as [p' | T s k].
  - rewrite Hn in H. apply eqitree_inv_Tau_r in H.
    destruct H as [t0 [-> Ht]]. cbn. auto.
  - pose proof H as H0. rewrite Hn in H. apply eqitree_inv_Vis_r in H.
    destruct H as [k' [-> Hk]].
    destruct (exec s (env c)) as [[r w]|]; cbn; auto.
Qed.

Lemma pauses_within_at ms n : forall p,
  pauses_within n ms (tree_of p) = pauses_at next n ms p.
Proof.
  induction n as [|n IH]; intros p; cbn [pauses_within pauses_at].
  - reflexivity.
  - pose proof (next_ok p) as Hn. unfold follows in Hn.
    destruct (next p) as [p' | T s k].
    + apply eqitree_inv_Tau_r in Hn. destruct Hn as [t0 [-> Ht]].
      rewrite (pauses_within_same _ _ _ _ Ht). apply IH.
    + apply eqitree_inv_Vis_r in Hn. destruct Hn as [k' [-> Hk]].
      rewrite (pauses_within_same _ _ _ _ (Hk _)). rewrite IH. reflexivity.
Qed.

Lemma awaits_at_tree n : forall p, awaits n (tree_of p) = awaits_at next n p.
Proof.
  induction n as [|n IH]; intros p; cbn [awaits awaits_at].
  - reflexivity.
  - pose proof (next_ok p) as Hn. unfold follows in Hn.
    destruct (next p) as [p' | T s k].
    + apply eqitree_inv_Tau_r in Hn. destruct Hn as [t0 [-> Ht]].
      rewrite (awaits_same _ _ _ Ht). apply IH.
    + apply eqitree_inv_Vis_r in Hn. destruct Hn as [k' [-> Hk]].
      reflexivity.
Qed.

Lemma run_run_at sched : forall c p,
  stands_at tree_of c p ->
  stands_at tree_of (run sched c) (fst (run_at next sched (p, env c)))
  /\ env (run sched c) = snd (run_at next sched (p, env c)).
Proof.
  induction sched as [|a sched IH]; intros c p H; cbn [run run_at fold_left].
  - auto.
  - destruct a as [|b]; cbn [react react_at].
    + destruct (step_advance c p H) as [H1 H2].
      specialize (IH (step c) _ H1). unfold run, run_at in IH.
      rewrite H2 in IH. rewrite <- surjective_pairing in IH. exact IH.
    + specialize (IH {| prog := prog c; env := deliver b (env c) |} p H).
      exact IH.
Qed.

End Simulation.

Lemma call_bind {T R} (f : sdk T) (k : T -> itree stmtE R) :
  (x <- call f ;; k x) ≅ Vis (Call f) k.
Proof. unfold call. rewrite bind_trigger. reflexivity. Qed.

Lemma assign_bind {R} a i (f : sdk byte) (k : unit -> itree stmtE R) :
  (x <- assign_at a i f ;; k x) ≅ Vis (Assign (a + i) f) k.
Proof. unfold assign_at. rewrite bind_trigger. reflexivity. Qed.

Ltac flatten :=
  repeat (setoid_rewrite bind_bind || setoid_rewrite bind_ret_l
          || setoid_rewrite bind_tau).
Ltac enter :=
  flatten; (rewrite call_bind || rewrite assign_bind);
  apply eqit_Vis; intros answer.
Ltac settle :=
  cbn [Stage1.tree_of Stage3.tree_of blink_from]; flatten; reflexivity.
Ltac visit := enter; settle.

Lemma stage3_from_ready i :
  Stage3.from_ready i
  ≅ Stage3.tree_of (if i <? 5 then Stage3.Ready i LedOn else Stage3.Pause).
Proof.
  unfold Stage3.from_ready. rewrite unfold_for.
  destruct (i <? 5); cbn [Stage3.tree_of].
  - reflexivity.
  - rewrite bind_ret_l. reflexivity.
Qed.

Lemma stage3_from_receive i :
  Stage3.from_receive i
  ≅ Stage3.tree_of
      (if i <? Stage3.PROGRAM_SIZE then Stage3.Poll i else Stage3.Blink 0 LedOn).
Proof.
  unfold Stage3.from_receive. rewrite unfold_for.
  destruct (i <? Stage3.PROGRAM_SIZE); cbn [Stage3.tree_of].
  - reflexivity.
  - rewrite bind_ret_l. unfold Stage3.from_blink, Stage3.slow_blink.
    rewrite unfold_forever at 1. reflexivity.
Qed.

Lemma stage3_follows p : follows Stage3.tree_of Stage3.next p.
Proof.
  unfold follows.
  destruct p as [[] | i [] | i | | | i | i | i | i | i | n [] | n];
    cbn [Stage3.next Stage3.tree_of].
  - unfold Stage3.main. visit.
  - visit.
  - visit.
  - enter. rewrite stage3_from_ready. change (0 <? 5) with true. settle.
  - unfold blink_from. visit.
  - unfold blink_from. visit.
  - unfold blink_from. visit.
  - unfold blink_from. visit.
  - apply eqit_Tau. apply stage3_from_ready.
  - unfold Stage3.from_pause. visit.
  - unfold Stage3.from_solid. enter. rewrite stage3_from_receive.
    change (0 <? Stage3.PROGRAM_SIZE) with true. settle.
  - unfold Stage3.from_poll, Stage3.receive_body, Stage3.wait_readable.
    rewrite unfold_while. enter. destruct answer; cbn [negb]; settle.
  - enter. unfold Stage3.from_poll, Stage3.receive_body. settle.
  - reflexivity.
  - visit.
  - apply eqit_Tau. apply stage3_from_receive.
  - unfold blink_from. visit.
  - unfold blink_from. visit.
  - unfold blink_from. visit.
  - unfold blink_from. visit.
  - apply eqit_Tau. unfold Stage3.from_blink, Stage3.slow_blink.
    rewrite unfold_forever at 1. reflexivity.
Qed.

Lemma stage1_from_loop led_state :
  Stage1.from_loop led_state
  ≅ Vis (Call (uart_is_readable Stage1.UART_ID))
      (fun readable : bool =>
         Stage1.tree_of
           (if readable then Stage1.Getc 0 led_state
            else Stage1.Back 0 led_state)).
Proof.
  unfold Stage1.from_loop, Stage1.echo_loop. rewrite unfold_iter.
  unfold Stage1.echo_body at 1. enter.
  destruct answer; cbn [Stage1.tree_of]; unfold Stage1.from_loop, Stage1.echo_again;
    flatten; reflexivity.
Qed.

Lemma stage1_from_ready i :
  Stage1.from_ready i
  ≅ Stage1.tree_of
      (if i <? 3 then Stage1.Ready i LedOn else Stage1.Poll 0 false).
Proof.
  unfold Stage1.from_ready. rewrite unfold_for.
  destruct (i <? 3); cbn [Stage1.tree_of].
  - reflexivity.
  - rewrite bind_ret_l. reflexivity.
Qed.

Lemma stage1_follows p : follows Stage1.tree_of Stage1.next p.
Proof.
  unfold follows.
  destruct p as [[] | i [] | i | n s | n s | n s b | n s b | n s];
    cbn [Stage1.next Stage1.tree_of].
  - unfold Stage1.main. visit.
  - visit.
  - visit.
  - enter. rewrite stage1_from_ready. change (0 <? 3) with true. settle.
  - unfold blink_from. visit.
  - unfold blink_from. visit.
  - unfold blink_from. visit.
  - unfold blink_from. visit.
  - apply eqit_Tau. apply stage1_from_ready.
  - rewrite stage1_from_loop. apply eqit_Vis. intros []; reflexivity.
  - visit.
  - visit.
  - enter. unfold Stage1.echo_again, Stage1.from_loop. settle.
  - reflexivity.
Qed.

(* ===================================================================== *)
(** ** Lists, wave forms and memory *)
(* ===================================================================== *)

Lemma periods_snoc gpio ms n :
  periods gpio ms (S n)
  = periods gpio ms n ++ [Level gpio true; Hold ms; Level gpio false; Hold ms].
Proof.
  induction n as [|n IH].
  - reflexivity.
  - change (periods gpio ms (S (S n)))
      with ([Level gpio true; Hold ms; Level gpio false; Hold ms]
              ++ periods gpio ms (S n)).
    rewrite IH at 1. cbn [periods]. rewrite app_assoc. reflexivity.
Qed.

Lemma granted_snoc answers b :
  granted (answers ++ [b]) = (granted answers + if b then 1 else 0)%nat.
Proof.
  unfold granted. rewrite filter_app, length_app. destruct b; reflexivity.
Qed.

Lemma combine_snoc {A B : Type} (l : list A) (m : list B) a b :
  length l = length m ->
  combine (l ++ [a]) (m ++ [b]) = combine l m ++ [(a, b)].
Proof.
  revert m. induction l as [|x l IH]; intros [|y m] H; cbn in H; try discriminate.
  - reflexivity.
  - cbn. rewrite IH by congruence. reflexivity.
Qed.

Lemma slots_snoc bytes c :
  Stage3.slots (bytes ++ [c])
  = Stage3.slots bytes
      ++ [(Stage3.RAM_LOAD_ADDRESS + Z.of_nat (length bytes), c)].
Proof.
  unfold Stage3.slots. rewrite length_app. cbn [length].
  rewrite seq_app, map_app. cbn [seq List.map Nat.add].
  rewrite combine_snoc by (rewrite length_map, length_seq; reflexivity).
  reflexivity.
Qed.

Lemma loaded_snoc ram0 bytes c a :
  (if a =? Stage3.RAM_LOAD_ADDRESS + Z.of_nat (length bytes) then c
   else Stage3.loaded ram0 bytes a)
  = Stage3.loaded ram0 (bytes ++ [c]) a.
Proof.
  unfold Stage3.loaded. rewrite length_app. cbn [length].
  destruct (Z.eqb_spec a (Stage3.RAM_LOAD_ADDRESS + Z.of_nat (length bytes)))
    as [-> | Hne].
  - replace (Stage3.RAM_LOAD_ADDRESS <=? _) with true by (symmetry; apply Z.leb_le; lia).
    replace (_ <? _) with true by (symmetry; apply Z.ltb_lt; lia).
    cbn [andb].
    replace (Z.to_nat _) with (length bytes) by lia.
    rewrite app_nth2 by lia. rewrite Nat.sub_diag. reflexivity.
  - destruct (Z.leb_spec Stage3.RAM_LOAD_ADDRESS a) as [Hlo | Hlo]; cbn [andb];
      [|reflexivity].
    destruct (Z.ltb_spec a (Stage3.RAM_LOAD_ADDRESS + Z.of_nat (length bytes)))
      as [Hhi | Hhi].
    + replace (a <? _) with true by (symmetry; apply Z.ltb_lt; lia).
      rewrite app_nth1 by lia. reflexivity.
    + replace (a <? _) with false by (symmetry; apply Z.ltb_ge; lia).
      reflexivity.
Qed.

(* ===================================================================== *)
(** ** Stage 3: the invariant *)
(* ===================================================================== *)

Lemma stage3_power_on ram0 :
  Stage3.invariant ram0 [] (Stage3.Setup InitLed) (power_on ram0).
Proof.
  split; cbn; auto; try discriminate.
  intros a. unfold Stage3.loaded. cbn [length Z.of_nat].
  rewrite Z.add_0_r.
  destruct (Z.leb_spec Stage3.RAM_LOAD_ADDRESS a); cbn [andb]; [|reflexivity].
  replace (a <? _) with false by (symmetry; apply Z.ltb_ge; lia). reflexivity.
Qed.

Lemma stage3_deliver ram0 sent p w b :
  Stage3.invariant ram0 sent p w ->
  Stage3.invariant ram0 (sent ++ [b]) p (deliver b w).
Proof.
  intros [Hwf Hsent Hcount Hpolls Hq Hquiet Htx Hwave Hstores Hram].
  split; cbn [deliver rx polls taken tx wave ram stores]; auto.
  - rewrite Hsent, app_assoc. reflexivity.
  - intros _ H. apply app_eq_nil in H. destruct H as [_ H]. discriminate.
Qed.

Ltac wave_step H :=
  rewrite H; cbn [Stage3.wave_of Stage3.solid_wave period_before];
  rewrite ?periods_snoc, <- ?app_assoc, ?app_nil_r; cbn [app]; reflexivity.

Ltac unfold_point3 :=
  unfold Stage3.started in *;
  cbn [log_wave log_poll poke dequeue rx polls taken tx wave ram stores
       Stage3.wf Stage3.count Stage3.announced
       Stage3.receiving Stage3.finished orb] in *;
  unfold Stage3.PROGRAM_SIZE in *.

Lemma stage3_advance ram0 sent p w :
  Stage3.invariant ram0 sent p w ->
  Stage3.invariant ram0 sent
    (fst (advance Stage3.next (p, w))) (snd (advance Stage3.next (p, w))).
Proof.
  intros [Hwf Hsent Hcount Hpolls Hq Hquiet Htx Hwave Hstores Hram].
  unfold advance. cbn [fst snd].
  destruct p as [[] | i [] | i | | | i | i | i | i | i | n [] | n];
    cbn [Stage3.next exec perform fst snd].
  all: try (split; unfold_point3; auto; try discriminate; try lia;
            try wave_step Hwave; fail).
  - (* ReadyBack *)
    destruct (Z.ltb_spec (i + 1) 5); split; unfold_point3;
      auto; try discriminate; try lia.
    + rewrite Hwave. cbn [Stage3.wave_of period_before]. rewrite app_nil_r.
      f_equal. lia.
    + rewrite Hwave. cbn [Stage3.wave_of]. f_equal. lia.
  - (* Poll *)
    destruct (rx w) as [|c rest] eqn:Hrx; cbn [negb];
      split; unfold_point3; rewrite ?granted_snoc, ?Hrx;
      auto; try discriminate; try lia.
  - (* Fetch *)
    destruct (rx w) as [|c rest] eqn:Hrx; cbn [fst snd].
    + exfalso. apply (Hq eq_refl eq_refl).
    + split; unfold_point3; auto; try discriminate; try lia.
      * rewrite Hsent, <- app_assoc. reflexivity.
      * rewrite length_app, Hcount. cbn [length]. lia.
      * rewrite Hstores, slots_snoc. do 3 f_equal. lia.
      * intros a. rewrite Hram. rewrite <- loaded_snoc.
        replace (Z.of_nat (length (taken w))) with i by lia. reflexivity.
  - (* FetchBack *)
    unfold Stage3.PROGRAM_SIZE.
    destruct (Z.ltb_spec (i + 1) 256); split; unfold_point3;
      auto; try discriminate; try lia.
Qed.

Lemma stage3_run_at ram0 sched : forall sent p w,
  Stage3.invariant ram0 sent p w ->
  Stage3.invariant ram0 (sent ++ arrivals sched)
    (fst (run_at Stage3.next sched (p, w)))
    (snd (run_at Stage3.next sched (p, w))).
Proof.
  induction sched as [|[|b] sched IH]; intros sent p w H;
    cbn [run_at fold_left arrivals react_at].
  - rewrite app_nil_r. exact H.
  - apply stage3_advance in H.
    rewrite (surjective_pairing (advance Stage3.next (p, w))).
    apply IH. exact H.
  - cbn [fst snd].
    replace (sent ++ b :: arrivals sched) with ((sent ++ [b]) ++ arrivals sched)
      by (rewrite <- app_assoc; reflexivity).
    apply IH. apply stage3_deliver. exact H.
Qed.

(* ===================================================================== *)
(** ** Stage 3: progress towards the success loop *)
(* ===================================================================== *)

Lemma stage3_rank_nonneg p : Stage3.wf p -> 0 <= Stage3.rank p.
Proof.
  destruct p as [[] | i [] | i | | | i | i | i | i | i | n b | n];
    cbn [Stage3.wf Stage3.rank Stage3.setup_left Stage3.blink_left];
    unfold Stage3.PROGRAM_SIZE; lia.
Qed.

Lemma stage3_rank_blinking p :
  Stage3.wf p -> (Stage3.rank p = 0 <-> Stage3.blinking p = true).
Proof.
  destruct p as [[] | i [] | i | | | i | i | i | i | i | n b | n];
    cbn [Stage3.wf Stage3.rank Stage3.setup_left Stage3.blink_left
         Stage3.blinking];
    unfold Stage3.PROGRAM_SIZE; intros; split; intros; try lia;
    try discriminate; reflexivity.
Qed.

Lemma stage3_queue_nonempty ram0 sent p w :
  Stage3.invariant ram0 sent p w ->
  (Z.to_nat Stage3.PROGRAM_SIZE <= length sent)%nat ->
  (Stage3.count p < Z.to_nat Stage3.PROGRAM_SIZE)%nat ->
  rx w <> [].
Proof.
  intros H Hlen Hc Hrx. destruct H as [_ Hsent Hcount _ _ _ _ _ _ _].
  rewrite Hsent, Hrx, app_nil_r, Hcount in Hlen. lia.
Qed.

Lemma stage3_rank_step ram0 sent p w :
  Stage3.invariant ram0 sent p w ->
  (Z.to_nat Stage3.PROGRAM_SIZE <= length sent)%nat ->
  Stage3.rank (fst (advance Stage3.next (p, w)))
  = Z.max 0 (Stage3.rank p - 1).
Proof.
  intros H Hlen. pose proof (stage3_queue_nonempty _ _ _ _ H Hlen) as Hq.
  destruct H as [Hwf _ _ _ _ _ _ _ _ _].
  unfold advance. cbn [fst snd].
  destruct p as [[] | i [] | i | | | i | i | i | i | i | n [] | n];
    cbn [Stage3.next exec perform fst snd Stage3.wf Stage3.count] in *;
    unfold Stage3.PROGRAM_SIZE in *;
    try (cbn [Stage3.rank Stage3.setup_left Stage3.blink_left];
         unfold Stage3.PROGRAM_SIZE; lia).
  - destruct (Z.ltb_spec (i + 1) 5);
      cbn [Stage3.rank Stage3.blink_left]; lia.
  - destruct (rx w) as [|c rest]; [exfalso; apply Hq; [lia | reflexivity]|].
    cbn [negb Stage3.rank]. unfold Stage3.PROGRAM_SIZE. lia.
  - destruct (rx w) as [|c rest]; [exfalso; apply Hq; [lia | reflexivity]|].
    cbn [fst Stage3.rank]. unfold Stage3.PROGRAM_SIZE. lia.
  - destruct (Z.ltb_spec (i + 1) 256);
      cbn [Stage3.rank]; unfold Stage3.PROGRAM_SIZE; lia.
Qed.

Lemma stage3_arrives ram0 more : forall sent p w,
  Stage3.invariant ram0 sent p w ->
  (Z.to_nat Stage3.PROGRAM_SIZE <= length sent)%nat ->
  Stage3.rank p <= Z.of_nat (ticks more) ->
  Stage3.blinking (fst (run_at Stage3.next more (p, w))) = true.
Proof.
  induction more as [|[|b] more IH]; intros sent p w H Hlen Hrank;
    cbn [run_at fold_left react_at ticks] in *.
  - pose proof (Stage3.inv_wf _ _ _ _ H) as Hwf.
    apply (stage3_rank_blinking p Hwf).
    pose proof (stage3_rank_nonneg p Hwf). lia.
  - pose proof (stage3_rank_step _ _ _ _ H Hlen) as Hstep.
    apply stage3_advance in H.
    rewrite (surjective_pairing (advance Stage3.next (p, w))).
    apply (IH sent); auto. lia.
  - cbn [fst snd]. apply (IH (sent ++ [b])).
    + apply stage3_deliver. exact H.
    + rewrite length_app. lia.
    + exact Hrank.
Qed.

Lemma stage3_rank_bound p : Stage3.wf p -> Stage3.rank p <= Z.of_nat Stage3.enough.
Proof.
  destruct p as [[] | i [] | i | | | i | i | i | i | i | n b | n];
    cbn [Stage3.wf Stage3.rank Stage3.setup_left Stage3.blink_left];
    unfold Stage3.PROGRAM_SIZE, Stage3.enough; try destruct b; lia.
Qed.

(** *** Telling the phases of [main] apart *)

Lemma stage3_pauses p : pauses_at Stage3.next 3 500 p = Stage3.finished p.
Proof.
  destruct p as [[] | i [] | i | | | i | i | i | i | i | n [] | n];
    try reflexivity;
    cbn [pauses_at Stage3.next probe fst snd orb Z.eqb Pos.eqb negb
         Stage3.finished]; unfold Stage3.PROGRAM_SIZE;
    try (destruct (i + 1 <? 5); reflexivity);
    destruct (i + 1 <? 256); reflexivity.
Qed.

Lemma stage3_awaits p : awaits_at Stage3.next 2 p = Stage3.receiving p.
Proof.
  destruct p as [[] | i [] | i | | | i | i | i | i | i | n [] | n];
    try reflexivity;
    cbn [awaits_at Stage3.next receive_stmt Stage3.receiving];
    unfold Stage3.PROGRAM_SIZE;
    try (destruct (i + 1 <? 5); reflexivity);
    destruct (i + 1 <? 256); reflexivity.
Qed.

Lemma stage3_same_phase c p q :
  stands_at Stage3.tree_of c p ->
  stands_at Stage3.tree_of c q ->
  Stage3.finished p = Stage3.finished q
  /\ Stage3.receiving p = Stage3.receiving q.
Proof.
  unfold stands_at. intros Hp Hq.
  assert (Heq : Stage3.tree_of p ≅ Stage3.tree_of q)
    by (rewrite <- Hp; exact Hq).
  split.
  - apply (pauses_within_same 3 500) in Heq.
    rewrite !(pauses_within_at _ _ _ stage3_follows), !stage3_pauses in Heq.
    exact Heq.
  - apply (awaits_same 2) in Heq.
    rewrite !(awaits_at_tree _ _ _ stage3_follows), !stage3_awaits in Heq.
    exact Heq.
Qed.

Lemma stage3_finished_count p :
  Stage3.wf p ->
  (Stage3.finished p = true
   <-> Stage3.count p = Z.to_nat Stage3.PROGRAM_SIZE).
Proof.
  destruct p as [[] | i [] | i | | | i | i | i | i | i | n b | n];
    cbn [Stage3.wf Stage3.finished Stage3.count]; unfold Stage3.PROGRAM_SIZE;
    intros Hwf; split; intros H; try discriminate; try reflexivity; try lia.
  all: destruct (Z.ltb_spec (i + 1) 256); cbn [negb] in *;
    try discriminate; try reflexivity; lia.
Qed.

Lemma stage3_count_bound p :
  Stage3.wf p -> (Stage3.count p <= Z.to_nat Stage3.PROGRAM_SIZE)%nat.
Proof.
  destruct p as [[] | i [] | i | | | i | i | i | i | i | n b | n];
    cbn [Stage3.wf Stage3.count]; unfold Stage3.PROGRAM_SIZE; lia.
Qed.

Lemma stage3_blinking_finished p :
  Stage3.blinking p = true -> Stage3.finished p = true.
Proof. destruct p; cbn; congruence. Qed.

Lemma stage3_from_blink n :
  Stage3.from_blink ≅ Stage3.tree_of (Stage3.Blink n LedOn).
Proof.
  cbn [Stage3.tree_of]. unfold Stage3.from_blink, Stage3.slow_blink.
  rewrite unfold_forever at 1. reflexivity.
Qed.

(** The jump that leaves the receive loop and the jump that closes a blink
    period continue in the same way. *)
Lemma stage3_finished_succeeded c p :
  Stage3.finished p = true -> stands_at Stage3.tree_of c p ->
  Stage3.succeeded c.
Proof.
  intros Hf Hp.
  destruct p as [[] | i [] | i | | | i | i | i | i | i | n b | n];
    cbn [Stage3.finished] in Hf; try discriminate.
  - exists (Stage3.BlinkBack 0). split; [reflexivity|].
    unfold stands_at in *. rewrite Hp. cbn [Stage3.tree_of].
    apply eqit_Tau. rewrite stage3_from_receive.
    destruct (i + 1 <? Stage3.PROGRAM_SIZE); [discriminate|].
    symmetry. apply stage3_from_blink.
  - exists (Stage3.Blink n b). split; [reflexivity | exact Hp].
  - exists (Stage3.BlinkBack n). split; [reflexivity | exact Hp].
Qed.

(* ===================================================================== *)
(** ** Stage 3: runs from power on *)
(* ===================================================================== *)

Lemma arrivals_app s1 s2 : arrivals (s1 ++ s2) = arrivals s1 ++ arrivals s2.
Proof.
  induction s1 as [|[|b] s1 IH]; cbn [app arrivals]; congruence.
Qed.

Lemma run_at_app {P} (next : P -> move P) s1 s2 pw :
  run_at next (s1 ++ s2) pw = run_at next s2 (run_at next s1 pw).
Proof. apply fold_left_app. Qed.

Lemma nth_seq_all {A} (d : A) (l : list A) :
  List.map (fun k => nth k l d) (seq 0 (length l)) = l.
Proof.
  induction l as [|x l IH]; cbn [length seq List.map nth].
  - reflexivity.
  - f_equal. rewrite <- seq_shift, List.map_map. exact IH.
Qed.

(** Every configuration the loader reaches stands at a control point of
    [main], and the board is in the state that belongs to that point. *)
Lemma stage3_trace ram0 sched :
  let pw := run_at Stage3.next sched (Stage3.start ram0) in
  stands_at Stage3.tree_of (run sched (boot Stage3.main ram0)) (fst pw)
  /\ env (run sched (boot Stage3.main ram0)) = snd pw
  /\ Stage3.invariant ram0 (arrivals sched) (fst pw) (snd pw).
Proof.
  cbn zeta.
  pose proof (run_run_at _ Stage3.tree_of Stage3.next stage3_follows sched
                (boot Stage3.main ram0) (Stage3.Setup InitLed)) as H.
  destruct H as [H1 H2]; [unfold stands_at; reflexivity|].
  split; [exact H1|]. split; [exact H2|].
  apply (stage3_run_at ram0 sched [] _ _ (stage3_power_on ram0)).
Qed.

Lemma stage3_buffer ram0 sent p w :
  Stage3.invariant ram0 sent p w ->
  Stage3.count p = Z.to_nat Stage3.PROGRAM_SIZE ->
  Stage3.buffer w = taken w
  /\ taken w = firstn (Z.to_nat Stage3.PROGRAM_SIZE) sent.
Proof.
  intros [_ Hsent Hcount _ _ _ _ _ _ Hram] Hc. rewrite Hc in Hcount. split.
  - unfold Stage3.buffer. rewrite <- Hcount.
    rewrite <- (nth_seq_all x00 (taken w)) at 2.
    apply map_ext_in. intros k Hk. apply in_seq in Hk.
    rewrite Hram. unfold Stage3.loaded.
    replace (Stage3.RAM_LOAD_ADDRESS <=? _) with true
      by (symmetry; apply Z.leb_le; lia).
    replace (_ <? _) with true by (symmetry; apply Z.ltb_lt; lia).
    cbn [andb]. f_equal. lia.
  - rewrite Hsent, <- Hcount. rewrite firstn_app, Nat.sub_diag, firstn_all.
    cbn [firstn]. rewrite app_nil_r. reflexivity.
Qed.

Lemma firstn_more {A} n (l1 l2 : list A) :
  (n <= length l1)%nat -> firstn n (l1 ++ l2) = firstn n l1.
Proof.
  intros H. rewrite firstn_app.
  replace (n - length l1)%nat with O by lia. cbn [firstn]. apply app_nil_r.
Qed.

(** What the loader has done once it stands at a point past the receive
    loop. *)
Lemma stage3_loaded ram0 sent p w :
  Stage3.invariant ram0 sent p w ->
  Stage3.finished p = true ->
  Stage3.buffer w = firstn 256 sent
  /\ taken w = firstn 256 sent
  /\ stores w = Stage3.slots (firstn 256 sent)
  /\ (256 <= length sent)%nat
  /\ (forall N, (1 <= N <= 256)%nat ->
      nth_error sent (N - 1)
      = Some (ram w (Stage3.RAM_LOAD_ADDRESS + Z.of_nat (N - 1)))).
Proof.
  intros H Hf.
  apply (stage3_finished_count p (Stage3.inv_wf _ _ _ _ H)) in Hf.
  destruct (stage3_buffer _ _ _ _ H Hf) as [Hb Ht].
  change (Z.to_nat Stage3.PROGRAM_SIZE) with 256%nat in *.
  pose proof (Stage3.inv_count _ _ _ _ H) as Hcount. rewrite Hf in Hcount.
  assert (Hlen : (256 <= length sent)%nat).
  { rewrite (Stage3.inv_sent _ _ _ _ H), length_app. lia. }
  repeat split; auto.
  - congruence.
  - rewrite (Stage3.inv_stores _ _ _ _ H). congruence.
  - intros N HN. rewrite (Stage3.inv_ram _ _ _ _ H). unfold Stage3.loaded.
    replace (Stage3.RAM_LOAD_ADDRESS <=? _) with true
      by (symmetry; apply Z.leb_le; lia).
    replace (_ <? _) with true by (symmetry; apply Z.ltb_lt; lia).
    cbn [andb].
    replace (Z.to_nat _) with (N - 1)%nat by lia.
    rewrite Ht, nth_firstn.
    replace (N - 1 <? 256)%nat with true by (symmetry; apply Nat.ltb_lt; lia).
    apply nth_error_nth'. lia.
Qed.

Lemma stage3_completes ram0 sched more :
  (256 <= length (arrivals sched))%nat ->
  (Stage3.enough <= ticks more)%nat ->
  Stage3.blinking
    (fst (run_at Stage3.next (sched ++ more) (Stage3.start ram0))) = true.
Proof.
  intros Hlen Hticks.
  destruct (stage3_trace ram0 sched) as [_ [_ Hinv1]].
  rewrite run_at_app.
  remember (run_at Stage3.next sched (Stage3.start ram0)) as pw1 eqn:E1.
  destruct pw1 as [p1 w1]. cbn [fst snd] in Hinv1.
  apply (stage3_arrives ram0 more (arrivals sched)); auto.
  pose proof (stage3_rank_bound p1 (Stage3.inv_wf _ _ _ _ Hinv1)). lia.
Qed.

Lemma stage3_succeeds ram0 sched more :
  (256 <= length (arrivals sched))%nat ->
  (Stage3.enough <= ticks more)%nat ->
  Stage3.succeeded (run (sched ++ more) (boot Stage3.main ram0)).
Proof.
  intros Hlen Hticks.
  destruct (stage3_trace ram0 (sched ++ more)) as [Hat _].
  eexists. split; [|exact Hat].
  apply stage3_completes; assumption.
Qed.

(** *** Reaching the receive loop *)

Lemma stage3_receiving_count p :
  Stage3.wf p -> Stage3.receiving p = true -> (Stage3.count p < 256)%nat.
Proof.
  destruct p as [[] | i [] | i | | | i | i | i | i | i | n b | n];
    cbn [Stage3.wf Stage3.receiving Stage3.count]; unfold Stage3.PROGRAM_SIZE;
    intros Hwf H; try discriminate; lia.
Qed.

Lemma stage3_lead_started p :
  Stage3.wf p -> Stage3.lead p <= 0 -> Stage3.started p = true.
Proof.
  unfold Stage3.lead, Stage3.started.
  destruct p as [[] | i [] | i | | | i | i | i | i | i | n b | n];
    cbn [Stage3.wf Stage3.receiving Stage3.finished orb Stage3.rank
         Stage3.setup_left Stage3.blink_left];
    unfold Stage3.PROGRAM_SIZE; intros Hwf;
    try destruct (i + 1 <? 256); cbn [orb negb]; try reflexivity; lia.
Qed.

Lemma stage3_lead_step p w :
  Stage3.wf p ->
  Stage3.lead (fst (advance Stage3.next (p, w)))
  = Z.max 0 (Stage3.lead p - 1).
Proof.
  unfold advance, Stage3.lead, Stage3.started. cbn [fst snd].
  destruct p as [[] | i [] | i | | | i | i | i | i | i | n [] | n];
    cbn [Stage3.next exec perform fst snd Stage3.wf];
    unfold Stage3.PROGRAM_SIZE; intros Hwf;
    try reflexivity;
    try destruct (rx w) as [|c rest];
    try destruct (Z.ltb_spec (i + 1) 5);
    cbn [fst negb Stage3.receiving Stage3.finished orb Stage3.rank
         Stage3.setup_left Stage3.blink_left];
    unfold Stage3.PROGRAM_SIZE;
    try destruct (Z.ltb_spec (i + 1) 256);
    cbn [negb orb Stage3.receiving Stage3.finished Stage3.rank]; lia.
Qed.

Lemma stage3_starts ram0 sched : forall sent p w,
  Stage3.invariant ram0 sent p w ->
  Stage3.lead p <= Z.of_nat (ticks sched) ->
  Stage3.started (fst (run_at Stage3.next sched (p, w))) = true.
Proof.
  induction sched as [|[|b] sched IH]; intros sent p w H Hlead;
    cbn [run_at fold_left react_at ticks] in *.
  - cbn [fst]. apply stage3_lead_started; [apply (Stage3.inv_wf _ _ _ _ H) | lia].
  - pose proof (stage3_lead_step p w (Stage3.inv_wf _ _ _ _ H)) as Hstep.
    apply stage3_advance in H.
    rewrite (surjective_pairing (advance Stage3.next (p, w))).
    apply (IH sent); auto. lia.
  - cbn [fst snd]. apply (IH (sent ++ [b])); auto.
    apply stage3_deliver. exact H.
Qed.

(** *** After the receive loop *)

Lemma stage3_finished_step p w :
  Stage3.finished p = true ->
  let pw := advance Stage3.next (p, w) in
  Stage3.finished (fst pw) = true
  /\ Stage3.beat (fst pw) = S (Stage3.beat p)
  /\ rx (snd pw) = rx w /\ polls (snd pw) = polls w
  /\ taken (snd pw) = taken w /\ tx (snd pw) = tx w
  /\ ram (snd pw) = ram w /\ stores (snd pw) = stores w.
Proof.
  unfold advance. cbn [fst snd].
  destruct p as [[] | i [] | i | | | i | i | i | i | i | n [] | n];
    cbn [Stage3.finished]; try discriminate; intros Hf;
    cbn [Stage3.next exec perform fst snd Stage3.finished Stage3.beat
         log_wave rx polls taken tx ram stores];
    try (repeat split; reflexivity || lia).
  destruct (i + 1 <? Stage3.PROGRAM_SIZE); [discriminate|].
  repeat split; reflexivity.
Qed.

Lemma stage3_finished_run more : forall p w,
  Stage3.finished p = true ->
  let pw := run_at Stage3.next more (p, w) in
  Stage3.finished (fst pw) = true
  /\ Stage3.beat (fst pw) = (Stage3.beat p + ticks more)%nat
  /\ rx (snd pw) = rx w ++ arrivals more /\ polls (snd pw) = polls w
  /\ taken (snd pw) = taken w /\ tx (snd pw) = tx w
  /\ ram (snd pw) = ram w /\ stores (snd pw) = stores w.
Proof.
  induction more as [|[|b] more IH]; intros p w Hf;
    cbn [run_at fold_left react_at ticks arrivals].
  - cbn [fst snd]. rewrite app_nil_r, Nat.add_0_r. repeat split; auto.
  - destruct (stage3_finished_step p w Hf)
      as [H1 [H2 [H3 [H4 [H5 [H6 [H7 H8]]]]]]].
    rewrite (surjective_pairing (advance Stage3.next (p, w))).
    specialize (IH _ (snd (advance Stage3.next (p, w))) H1).
    cbn zeta in IH. unfold run_at in IH.
    rewrite H2, H3, H4, H5, H6, H7, H8 in IH.
    replace (Stage3.beat p + S (ticks more))%nat
      with (S (Stage3.beat p) + ticks more)%nat by lia.
    exact IH.
  - cbn [fst snd]. specialize (IH p (deliver b w) Hf).
    cbn zeta in IH. unfold run_at in IH.
    cbn [deliver rx polls taken tx ram stores] in IH.
    rewrite <- app_assoc in IH. exact IH.
Qed.

Lemma stage3_beat_wave p :
  Stage3.finished p = true ->
  exists n b,
    Stage3.wave_of p
    = Stage3.solid_wave ++ periods Stage3.LED_PIN 500 n
        ++ period_before Stage3.LED_PIN 500 b
    /\ (Stage3.beat p <= 5 * n + 5)%nat.
Proof.
  destruct p as [[] | i [] | i | | | i | i | i | i | i | n b | n];
    cbn [Stage3.finished]; try discriminate; intros _.
  - exists O, LedOn. split; [reflexivity | cbn; lia].
  - exists n, b. split; [reflexivity | destruct b; cbn [Stage3.beat]; lia].
  - exists (S n), LedOn. split; [|cbn [Stage3.beat]; lia].
    cbn [Stage3.wave_of period_before]. rewrite app_nil_r. reflexivity.
Qed.

Lemma stage3_wave_prefix p :
  Stage3.wf p -> Stage3.finished p = false ->
  prefix (Stage3.wave_of p) Stage3.solid_wave.
Proof.
  unfold prefix.
  destruct p as [[] | i [] | i | | | i | i | i | i | i | n b | n];
    cbn [Stage3.wf Stage3.finished]; intros Hwf Hf; try discriminate;
    try (eexists; cbn; reflexivity);
    try (exists []; cbn [Stage3.wave_of]; rewrite app_nil_r; reflexivity).
  all: assert (Hi : i = 0 \/ i = 1 \/ i = 2 \/ i = 3 \/ i = 4) by lia;
    destruct Hi as [-> | [-> | [-> | [-> | ->]]]]; eexists; cbn; reflexivity.
Qed.

Lemma slots_length bytes : length (Stage3.slots bytes) = length bytes.
Proof.
  unfold Stage3.slots. rewrite length_combine, length_map, length_seq. lia.
Qed.

(** [main] has not returned at any control point. *)
Lemma stands_at_running {P} (tree_of : P -> itree stmtE Z) next c p :
  (forall q, follows tree_of next q) ->
  stands_at tree_of c p ->
  forall r, observe (prog c) <> RetF r.
Proof.
  intros Hnext Hp r Hr. unfold stands_at in Hp.
  pose proof (Hnext p) as Hn. unfold follows in Hn.
  destruct (next p) as [p' | T s k]; rewrite Hn in Hp.
  - apply eqitree_inv_Tau_r in Hp. destruct Hp as [t0 [Hp _]]. congruence.
  - apply eqitree_inv_Vis_r in Hp. destruct Hp as [k' [Hp _]]. congruence.
Qed.

Lemma stage3_wave_receiving p :
  Stage3.receiving p = true -> Stage3.wave_of p = Stage3.solid_wave.
Proof. destruct p; cbn [Stage3.receiving]; try discriminate; reflexivity. Qed.

Lemma stage3_wave_started p :
  Stage3.started p = true -> prefix Stage3.solid_wave (Stage3.wave_of p).
Proof.
  unfold Stage3.started, prefix.
  destruct p as [[] | i [] | i | | | i | i | i | i | i | n b | n];
    cbn [Stage3.receiving Stage3.finished orb]; try discriminate; intros _;
    cbn [Stage3.wave_of]; try (exists []; rewrite app_nil_r; reflexivity);
    eexists; reflexivity.
Qed.

Lemma stage3_count_started p :
  Stage3.wf p -> (0 < Stage3.count p)%nat -> Stage3.started p = true.
Proof.
  unfold Stage3.started.
  destruct p as [[] | i [] | i | | | i | i | i | i | i | n b | n];
    cbn [Stage3.wf Stage3.count Stage3.receiving Stage3.finished orb];
    unfold Stage3.PROGRAM_SIZE; intros Hwf Hc; try reflexivity; lia.
Qed.

(* ===================================================================== *)
(** ** Stage 1: the invariant *)
(* ===================================================================== *)

Lemma toggles_snoc gpio n : forall level,
  toggles gpio level (S n)
  = toggles gpio level n ++ [Level gpio (xorb level (Nat.odd (S n)))].
Proof.
  induction n as [|n IH]; intros level.
  - cbn. destruct level; reflexivity.
  - change (toggles gpio level (S (S n)))
      with (Level gpio (negb level) :: toggles gpio (negb level) (S n)).
    rewrite IH. cbn [toggles app]. do 3 f_equal.
    rewrite (Nat.odd_succ (S n)), <- Nat.negb_odd.
    destruct level, (Nat.odd (S n)); reflexivity.
Qed.

Lemma stage1_power_on ram0 :
  Stage1.invariant ram0 [] (Stage1.Setup InitLed) (power_on ram0).
Proof. split; cbn; auto; discriminate. Qed.

Lemma stage1_deliver ram0 sent p w b :
  Stage1.invariant ram0 sent p w ->
  Stage1.invariant ram0 (sent ++ [b]) p (deliver b w).
Proof.
  intros [Hwf Hsent Hcount Hpolls Hq Hquiet Htx Hwave Hstores Hram].
  split; cbn [deliver rx polls taken tx wave ram stores]; auto.
  - rewrite Hsent, app_assoc. reflexivity.
  - intros _ H. apply app_eq_nil in H. destruct H as [_ H]. discriminate.
Qed.

Ltac wave_step1 H :=
  rewrite H; cbn [Stage1.wave_of Stage1.ready_wave period_before];
  rewrite ?periods_snoc, <- ?app_assoc, ?app_nil_r; cbn [app]; reflexivity.

Ltac unfold_point1 :=
  cbn [log_wave log_poll log_tx dequeue rx polls taken tx wave ram stores
       Stage1.wf Stage1.count Stage1.announced Stage1.in_hand
       Stage1.in_loop] in *.

Lemma stage1_advance ram0 sent p w :
  Stage1.invariant ram0 sent p w ->
  Stage1.invariant ram0 sent
    (fst (advance Stage1.next (p, w))) (snd (advance Stage1.next (p, w))).
Proof.
  intros [Hwf Hsent Hcount Hpolls Hq Hquiet Htx Hwave Hstores Hram].
  unfold advance. cbn [fst snd].
  destruct p as [[] | i [] | i | n s | n s | n s b | n s b | n s];
    cbn [Stage1.next exec perform fst snd].
  all: try (split; unfold_point1; auto; try discriminate; try lia;
            try wave_step1 Hwave; fail).
  - (* ReadyBack *)
    destruct (Z.ltb_spec (i + 1) 3) as [Hi | Hi]; split; unfold_point1;
      auto; try discriminate; try lia.
    + intros _. apply Hquiet.
      destruct (Z.ltb_spec (i + 1) 3); [reflexivity | lia].
    + rewrite Hwave. cbn [Stage1.wave_of period_before]. rewrite app_nil_r.
      f_equal. lia.
    + rewrite Hwave. cbn [Stage1.wave_of toggles]. rewrite app_nil_r.
      unfold Stage1.ready_wave. f_equal. lia.
  - (* Poll *)
    destruct (rx w) as [|c rest] eqn:Hrx;
      split; unfold_point1; rewrite ?granted_snoc, ?Hrx;
      auto; try discriminate; try lia.
  - (* Getc *)
    destruct (rx w) as [|c rest] eqn:Hrx; cbn [fst snd].
    + exfalso. apply (Hq eq_refl eq_refl).
    + split; unfold_point1; auto; try discriminate; try lia.
      * split; [|lia]. rewrite Hwf. rewrite Nat.odd_succ, <- Nat.negb_odd.
        reflexivity.
      * rewrite Hsent, <- app_assoc. reflexivity.
      * rewrite length_app, Hcount. cbn [length]. lia.
      * rewrite Htx, app_nil_r. reflexivity.
  - (* Toggle *)
    split; unfold_point1; auto; try discriminate; try lia.
    rewrite Hwave. cbn [Stage1.wave_of]. destruct Hwf as [Hs Hn].
    destruct n as [|n]; [lia|]. cbn [Nat.pred].
    rewrite toggles_snoc, <- app_assoc, Hs. reflexivity.
  - (* Echo *)
    split; unfold_point1; auto; try discriminate; try lia.
    + tauto.
    + rewrite Htx, app_nil_r. reflexivity.
Qed.

Lemma stage1_run_at ram0 sched : forall sent p w,
  Stage1.invariant ram0 sent p w ->
  Stage1.invariant ram0 (sent ++ arrivals sched)
    (fst (run_at Stage1.next sched (p, w)))
    (snd (run_at Stage1.next sched (p, w))).
Proof.
  induction sched as [|[|b] sched IH]; intros sent p w H;
    cbn [run_at fold_left arrivals react_at].
  - rewrite app_nil_r. exact H.
  - apply stage1_advance in H.
    rewrite (surjective_pairing (advance Stage1.next (p, w))).
    apply IH. exact H.
  - cbn [fst snd].
    replace (sent ++ b :: arrivals sched) with ((sent ++ [b]) ++ arrivals sched)
      by (rewrite <- app_assoc; reflexivity).
    apply IH. apply stage1_deliver. exact H.
Qed.

(** Every configuration the echo test reaches stands at a control point
    of [main], and the board is in the state that belongs to that point. *)
Lemma stage1_trace ram0 sched :
  let pw := run_at Stage1.next sched (Stage1.start ram0) in
  stands_at Stage1.tree_of (run sched (boot Stage1.main ram0)) (fst pw)
  /\ env (run sched (boot Stage1.main ram0)) = snd pw
  /\ Stage1.invariant ram0 (arrivals sched) (fst pw) (snd pw).
Proof.
  cbn zeta.
  pose proof (run_run_at _ Stage1.tree_of Stage1.next stage1_follows sched
                (boot Stage1.main ram0) (Stage1.Setup InitLed)) as H.
  destruct H as [H1 H2]; [unfold stands_at; reflexivity|].
  split; [exact H1|]. split; [exact H2|].
  apply (stage1_run_at ram0 sched [] _ _ (stage1_power_on ram0)).
Qed.

(* ===================================================================== *)
(** ** Stage 1: progress *)
(* ===================================================================== *)

Lemma stage1_pauses p :
  pauses_at Stage1.next 6 100 p = negb (Stage1.in_loop p).
Proof.
  destruct p as [[] | i [] | i | n s | n s | n s b | n s b | n s];
    try reflexivity.
  cbn [pauses_at Stage1.next Stage1.in_loop].
  destruct (i + 1 <? 3); reflexivity.
Qed.

Lemma stage1_same_phase c p q :
  stands_at Stage1.tree_of c p ->
  stands_at Stage1.tree_of c q ->
  Stage1.in_loop p = Stage1.in_loop q.
Proof.
  unfold stands_at. intros Hp Hq.
  assert (Heq : Stage1.tree_of p ≅ Stage1.tree_of q)
    by (rewrite <- Hp; exact Hq).
  apply (pauses_within_same 6 100) in Heq.
  rewrite !(pauses_within_at _ _ _ stage1_follows), !stage1_pauses in Heq.
  destruct (Stage1.in_loop p), (Stage1.in_loop q); cbn in Heq; congruence.
Qed.

Lemma stage1_lead_in_loop p :
  Stage1.wf p -> Stage1.lead p <= 0 -> Stage1.in_loop p = true.
Proof.
  destruct p as [[] | i [] | i | n s | n s | n s b | n s b | n s];
    cbn [Stage1.wf Stage1.lead Stage1.setup_left Stage1.blink_left
         Stage1.in_loop]; intros; try reflexivity; lia.
Qed.

Lemma stage1_lead_step p w :
  Stage1.wf p ->
  Stage1.lead (fst (advance Stage1.next (p, w)))
  = Z.max 0 (Stage1.lead p - 1).
Proof.
  unfold advance. cbn [fst snd].
  destruct p as [[] | i [] | i | n s | n s | n s b | n s b | n s];
    cbn [Stage1.next exec perform fst snd Stage1.wf]; intros Hwf;
    try reflexivity;
    try destruct (rx w) as [|c rest];
    try destruct (Z.ltb_spec (i + 1) 3);
    cbn [fst Stage1.lead Stage1.setup_left Stage1.blink_left]; lia.
Qed.

Lemma stage1_starts ram0 sched : forall sent p w,
  Stage1.invariant ram0 sent p w ->
  Stage1.lead p <= Z.of_nat (ticks sched) ->
  Stage1.in_loop (fst (run_at Stage1.next sched (p, w))) = true.
Proof.
  induction sched as [|[|b] sched IH]; intros sent p w H Hlead;
    cbn [run_at fold_left react_at ticks] in *.
  - cbn [fst]. apply stage1_lead_in_loop; [apply (Stage1.inv_wf _ _ _ _ H) | lia].
  - pose proof (stage1_lead_step p w (Stage1.inv_wf _ _ _ _ H)) as Hstep.
    apply stage1_advance in H.
    rewrite (surjective_pairing (advance Stage1.next (p, w))).
    apply (IH sent); auto. lia.
  - cbn [fst snd]. apply (IH (sent ++ [b])); auto.
    apply stage1_deliver. exact H.
Qed.

(** Once idle, the loop stays idle as long as nothing arrives. *)
Lemma stage1_idle_step ram0 sent p w :
  Stage1.invariant ram0 sent p w ->
  Stage1.idle p w = true ->
  Stage1.idle (fst (advance Stage1.next (p, w)))
    (snd (advance Stage1.next (p, w))) = true.
Proof.
  intros H. pose proof (Stage1.inv_queued _ _ _ _ H) as Hq.
  unfold Stage1.idle, advance. cbn [fst snd].
  destruct (rx w) as [|c rest] eqn:Hrx;
    [|rewrite andb_false_r; discriminate].
  destruct p as [[] | i [] | i | n s | n s | n s b | n s b | n s];
    cbn [Stage1.in_loop Stage1.in_hand andb Stage1.announced] in *;
    try discriminate;
    cbn [Stage1.next exec perform fst snd]; rewrite ?Hrx;
    cbn [fst snd log_poll rx Stage1.in_loop Stage1.in_hand andb];
    rewrite ?Hrx; try reflexivity.
  - destruct (Z.ltb_spec (i + 1) 3); cbn [negb andb]; [discriminate|].
    reflexivity.
Qed.

(** While not idle, every step brings the loop one step closer. *)
Lemma stage1_rank_step ram0 sent p w :
  Stage1.invariant ram0 sent p w ->
  Stage1.idle p w = false ->
  Stage1.rank (fst (advance Stage1.next (p, w)))
    (snd (advance Stage1.next (p, w)))
  = Stage1.rank p w - 1.
Proof.
  intros H. pose proof (Stage1.inv_queued _ _ _ _ H) as Hq.
  pose proof (Stage1.inv_wf _ _ _ _ H) as Hwf.
  unfold Stage1.idle, Stage1.rank, advance. cbn [fst snd].
  destruct p as [[] | i [] | i | n s | n s | n s b | n s b | n s];
    cbn [Stage1.in_loop Stage1.in_hand andb Stage1.announced Stage1.wf] in *;
    cbn [Stage1.next exec perform fst snd];
    destruct (rx w) as [|c rest] eqn:Hrx;
    try destruct (Z.ltb_spec (i + 1) 3);
    cbn [negb andb]; try discriminate;
    try (exfalso; apply (Hq eq_refl eq_refl)); intros _;
    cbn [fst snd log_wave log_tx log_poll dequeue rx Stage1.lead
         Stage1.setup_left Stage1.blink_left];
    rewrite ?Hrx; cbn [length]; lia.
Qed.

Lemma stage1_rank_idle ram0 sent p w :
  Stage1.invariant ram0 sent p w ->
  Stage1.rank p w <= 0 -> Stage1.idle p w = true.
Proof.
  intros H. pose proof (Stage1.inv_queued _ _ _ _ H) as Hq.
  pose proof (Stage1.inv_wf _ _ _ _ H) as Hwf.
  unfold Stage1.idle, Stage1.rank.
  destruct p as [[] | i [] | i | n s | n s | n s b | n s b | n s];
    cbn [Stage1.in_loop Stage1.in_hand andb Stage1.announced Stage1.wf
         Stage1.lead Stage1.setup_left Stage1.blink_left] in *;
    try lia.
  - destruct (rx w); [reflexivity | cbn [length]; lia].
  - destruct (rx w); [exfalso; apply (Hq eq_refl eq_refl) | cbn [length]; lia].
Qed.

Lemma stage1_settles ram0 k : forall sent p w,
  Stage1.invariant ram0 sent p w ->
  Stage1.rank p w <= Z.of_nat k ->
  Stage1.idle (fst (run_at Stage1.next (repeat Tick k) (p, w)))
    (snd (run_at Stage1.next (repeat Tick k) (p, w))) = true.
Proof.
  assert (Hstay : forall k sent p w,
    Stage1.invariant ram0 sent p w -> Stage1.idle p w = true ->
    Stage1.idle (fst (run_at Stage1.next (repeat Tick k) (p, w)))
      (snd (run_at Stage1.next (repeat Tick k) (p, w))) = true).
  { clear k. induction k as [|k IH]; intros sent p w H Hi;
      cbn [repeat run_at fold_left react_at]; [exact Hi|].
    rewrite (surjective_pairing (advance Stage1.next (p, w))).
    apply (IH sent).
    - apply stage1_advance. exact H.
    - apply (stage1_idle_step _ _ _ _ H Hi). }
  induction k as [|k IH]; intros sent p w H Hr;
    cbn [repeat run_at fold_left react_at].
  - cbn [fst snd]. apply (stage1_rank_idle _ _ _ _ H). lia.
  - destruct (Stage1.idle p w) eqn:Hi.
    + apply (Hstay (S k) sent p w H Hi).
    + pose proof (stage1_rank_step _ _ _ _ H Hi) as Hstep.
      rewrite (surjective_pairing (advance Stage1.next (p, w))).
      apply (IH sent).
      * apply stage1_advance. exact H.
      * lia.
Qed.

Lemma stage1_rank_bound ram0 sent p w :
  Stage1.invariant ram0 sent p w ->
  Stage1.rank p w <= Z.of_nat (Stage1.enough (length sent)).
Proof.
  intros H. pose proof (Stage1.inv_wf _ _ _ _ H) as Hwf.
  pose proof (Stage1.inv_sent _ _ _ _ H) as Hsent.
  pose proof (Stage1.inv_count _ _ _ _ H) as Hcount.
  apply (f_equal (@length byte)) in Hsent. rewrite length_app in Hsent.
  unfold Stage1.rank, Stage1.enough.
  destruct p as [[] | i [] | i | n s | n s | n s b | n s b | n s];
    cbn [Stage1.wf Stage1.count Stage1.lead Stage1.setup_left
         Stage1.blink_left] in *; lia.
Qed.

(* ===================================================================== *)
(** ** Stage 1: runs from power on *)
(* ===================================================================== *)

Lemma arrivals_idle k : arrivals (repeat Tick k) = [].
Proof. induction k; cbn; auto. Qed.

Lemma flips_app gpio w1 : forall level w2,
  flips gpio level (w1 ++ w2)
  = (flips gpio level w1 + flips gpio (pin_level gpio level w1) w2)%nat.
Proof.
  induction w1 as [|[g v | ms] w1 IH]; intros level w2;
    cbn [app flips pin_level].
  - reflexivity.
  - destruct (g =? gpio); rewrite IH; lia.
  - apply IH.
Qed.

Lemma flips_toggles gpio n : forall level,
  flips gpio level (toggles gpio level n) = n.
Proof.
  induction n as [|n IH]; intros level; cbn [toggles flips].
  - reflexivity.
  - rewrite Z.eqb_refl, IH. destruct level; reflexivity.
Qed.

Lemma stage1_wave_in_loop p :
  Stage1.wf p -> Stage1.in_loop p = true ->
  exists n, Stage1.wave_of p
            = Stage1.ready_wave ++ toggles Stage1.LED_PIN false n
            /\ (n <= Stage1.count p)%nat
            /\ (Stage1.in_hand p = [] -> n = Stage1.count p).
Proof.
  destruct p as [[] | i [] | i | n s | n s | n s b | n s b | n s];
    cbn [Stage1.wf Stage1.in_loop Stage1.count Stage1.in_hand Stage1.wave_of];
    intros Hwf Hl; try discriminate.
  - exists O. split; [|split; auto].
    destruct (Z.ltb_spec (i + 1) 3); [discriminate|].
    replace i with 2 by lia. reflexivity.
  - exists n. auto.
  - exists n. auto.
  - exists (Nat.pred n). split; [reflexivity|]. split; [lia | discriminate].
  - exists n. split; [reflexivity|]. split; [lia | discriminate].
  - exists n. auto.
Qed.

(** What the echo test has done once it is idle. *)
Lemma stage1_idle_state ram0 sent p w :
  Stage1.invariant ram0 sent p w ->
  Stage1.idle p w = true ->
  tx w = sent /\ taken w = sent /\ rx w = []
  /\ granted (polls w) = length sent
  /\ wave w = Stage1.ready_wave ++ toggles Stage1.LED_PIN false (length sent).
Proof.
  intros H Hi. unfold Stage1.idle in Hi.
  apply andb_prop in Hi. destruct Hi as [Hi Hhand].
  apply andb_prop in Hi. destruct Hi as [Hloop Hrx].
  destruct (rx w) as [|c rest] eqn:Erx; [|discriminate].
  destruct (Stage1.in_hand p) as [|b l] eqn:Ehand; [|discriminate].
  pose proof (Stage1.inv_sent _ _ _ _ H) as Hsent.
  rewrite Erx, app_nil_r in Hsent.
  pose proof (Stage1.inv_tx _ _ _ _ H) as Htx.
  rewrite Ehand, app_nil_r in Htx.
  pose proof (Stage1.inv_count _ _ _ _ H) as Hcount.
  assert (Hann : Stage1.announced p = O).
  { destruct (Stage1.announced p) as [|[|m]] eqn:Ea; auto.
    - elim (Stage1.inv_queued _ _ _ _ H Ea Erx).
    - destruct p; discriminate. }
  destruct (stage1_wave_in_loop p (Stage1.inv_wf _ _ _ _ H) Hloop)
    as [n [Hw [_ Hn]]].
  specialize (Hn Ehand). subst n.
  repeat split.
  - congruence.
  - congruence.
  - rewrite (Stage1.inv_polls _ _ _ _ H), Hann. rewrite Hsent, Hcount. lia.
  - rewrite (Stage1.inv_wave _ _ _ _ H), Hw, Hsent, Hcount. reflexivity.
Qed.

Lemma stage1_settled ram0 sched k :
  (Stage1.enough (length (arrivals sched)) <= k)%nat ->
  let w := env (run (sched ++ repeat Tick k) (boot Stage1.main ram0)) in
  tx w = arrivals sched /\ taken w = arrivals sched /\ rx w = []
  /\ granted (polls w) = length (arrivals sched)
  /\ wave w
     = Stage1.ready_wave
         ++ toggles Stage1.LED_PIN false (length (arrivals sched)).
Proof.
  intros Hk. cbn zeta.
  destruct (stage1_trace ram0 (sched ++ repeat Tick k)) as [Hat [Henv Hinv]].
  destruct (stage1_trace ram0 sched) as [_ [_ Hinv1]].
  rewrite run_at_app in Hat, Henv, Hinv.
  remember (run_at Stage1.next sched (Stage1.start ram0)) as pw1 eqn:E1.
  destruct pw1 as [p1 w1]. cbn [fst snd] in Hinv1.
  rewrite arrivals_app, arrivals_idle, app_nil_r in Hinv.
  assert (Hidle : Stage1.idle
            (fst (run_at Stage1.next (repeat Tick k) (p1, w1)))
            (snd (run_at Stage1.next (repeat Tick k) (p1, w1))) = true).
  { apply (stage1_settles ram0 k (arrivals sched)); auto.
    pose proof (stage1_rank_bound _ _ _ _ Hinv1). lia. }
  rewrite Henv. apply (stage1_idle_state _ _ _ _ Hinv Hidle).
Qed.

(* ===================================================================== *)
(** ** Initial segments *)
(* ===================================================================== *)



Lemma prefix_trans {A} (l1 l2 l3 : list A) :
  prefix l1 l2 -> prefix l2 l3 -> prefix l1 l3.
Proof.
  intros [r1 ->] [r2 ->]. exists (r1 ++ r2). rewrite app_assoc. reflexivity.
Qed.




Lemma prefix_hd {A} (l1 l2 : list A) x :
  prefix l1 l2 -> hd_error l1 = Some x -> hd_error l2 = Some x.
Proof. intros [r ->]. destruct l1; cbn; [discriminate | auto]. Qed.










Lemma stage1_wave_before p :
  Stage1.wf p -> Stage1.in_loop p = false ->
  prefix (Stage1.wave_of p) Stage1.ready_wave.
Proof.
  unfold prefix.
  destruct p as [[] | i [] | i | n s | n s | n s b | n s b | n s];
    cbn [Stage1.wf Stage1.in_loop]; intros Hwf Hl; try discriminate;
    try (eexists; cbn; reflexivity).
  all: try (destruct (Z.ltb_spec (i + 1) 3); [|discriminate]).
  all: assert (Hi : i = 0 \/ i = 1 \/ i = 2) by lia;
    destruct Hi as [-> | [-> | ->]]; try lia; eexists; cbn; reflexivity.
Qed.



(* ===================================================================== *)
(** ** The phases of a configuration *)
(* ===================================================================== *)

(** Where a loader configuration is not past the ready phase, its control
    point is one that precedes the receive loop. *)
Lemma stage3_before_start c p :
  stands_at Stage3.tree_of c p -> Stage3.wf p ->
  ~ Stage3.in_receive c -> ~ Stage3.succeeded c ->
  Stage3.started p = false.
Proof.
  intros Hat Hwf Hr Hs. unfold Stage3.started.
  destruct (Stage3.receiving p) eqn:E1.
  - elim Hr. exists p. auto.
  - destruct (Stage3.finished p) eqn:E2; [|reflexivity].
    elim Hs. apply (stage3_finished_succeeded _ _ E2 Hat).
Qed.

Lemma stage3_after_start c p :
  stands_at Stage3.tree_of c p ->
  Stage3.in_receive c \/ Stage3.succeeded c ->
  Stage3.started p = true.
Proof.
  intros Hat [[q [_ [Hq Hs]]] | [q [Hq Hs]]]; unfold Stage3.started;
    destruct (stage3_same_phase _ _ _ Hat Hs) as [Hfin Hrecv].
  - rewrite Hrecv, Hq. reflexivity.
  - rewrite Hfin, (stage3_blinking_finished _ Hq). apply orb_true_r.
Qed.

Lemma stage3_started_phase c p :
  stands_at Stage3.tree_of c p -> Stage3.wf p ->
  Stage3.started p = true ->
  Stage3.in_receive c \/ Stage3.succeeded c.
Proof.
  intros Hat Hwf Hst. unfold Stage3.started in Hst.
  destruct (Stage3.receiving p) eqn:E1.
  - left. exists p. auto.
  - right. apply (stage3_finished_succeeded _ p); auto.
Qed.

Lemma stage1_before_loop c p :
  stands_at Stage1.tree_of c p -> Stage1.wf p ->
  ~ Stage1.in_main_loop c -> Stage1.in_loop p = false.
Proof.
  intros Hat Hwf Hn. destruct (Stage1.in_loop p) eqn:E; [|reflexivity].
  elim Hn. exists p. auto.
Qed.

Lemma stage1_in_loop c p :
  stands_at Stage1.tree_of c p ->
  Stage1.in_main_loop c -> Stage1.in_loop p = true.
Proof.
  intros Hat [q [_ [Hq Hs]]]. rewrite (stage1_same_phase _ _ _ Hat Hs).
  exact Hq.
Qed.

(* ===================================================================== *)
(** ** The loops, from the number of steps made *)
(* ===================================================================== *)

Lemma stage3_started_from ram0 sched :
  (Stage3.lead_steps <= ticks sched)%nat ->
  Stage3.started (fst (run_at Stage3.next sched (Stage3.start ram0))) = true.
Proof.
  intros Hticks. unfold Stage3.start.
  apply (stage3_starts ram0 sched [] _ _ (stage3_power_on ram0)).
  unfold Stage3.lead_steps in Hticks. cbn. lia.
Qed.

Lemma stage1_in_loop_from ram0 sched :
  (Stage1.lead_steps <= ticks sched)%nat ->
  Stage1.in_loop (fst (run_at Stage1.next sched (Stage1.start ram0))) = true.
Proof.
  intros Hticks. unfold Stage1.start.
  apply (stage1_starts ram0 sched [] _ _ (stage1_power_on ram0)).
  unfold Stage1.lead_steps in Hticks. cbn. lia.
Qed.

Lemma ticks_app s1 s2 : ticks (s1 ++ s2) = (ticks s1 + ticks s2)%nat.
Proof.
  induction s1 as [|[|b] s1 IH]; cbn [app ticks]; lia.
Qed.

(** Before the receive loop nothing has been read. *)
Lemma stage3_count_before p :
  Stage3.wf p -> Stage3.started p = false -> Stage3.count p = O.
Proof.
  intros Hwf Hst. destruct (Stage3.count p) eqn:E; [reflexivity|].
  rewrite (stage3_count_started p Hwf) in Hst; [discriminate | lia].
Qed.

(** With fewer than 256 bytes read, a started loader is in the receive
    loop. *)
Lemma stage3_started_receiving p :
  Stage3.wf p -> Stage3.started p = true ->
  (Stage3.count p < 256)%nat -> Stage3.receiving p = true.
Proof.
  intros Hwf Hst Hc. unfold Stage3.started in Hst.
  destruct (Stage3.finished p) eqn:Hf;
    [|rewrite orb_false_r in Hst; exact Hst].
  apply (stage3_finished_count _ Hwf) in Hf.
  unfold Stage3.PROGRAM_SIZE in Hf. lia.
Qed.

(** No step of the receive loop writes to the LED, the step that leaves
    the loop included. *)
Lemma stage3_receive_step p w :
  Stage3.receiving p = true ->
  Stage3.wave_of (fst (advance Stage3.next (p, w))) = Stage3.solid_wave.
Proof.
  unfold advance. cbn [fst snd].
  destruct p as [[] | i [] | i | | | i | i | i | i | i | n [] | n];
    cbn [Stage3.receiving]; try discriminate; intros H;
    cbn [Stage3.next exec perform fst snd].
  - destruct (rx w); reflexivity.
  - reflexivity.
  - reflexivity.
  - destruct (rx w); reflexivity.
  - destruct (i + 1 <? Stage3.PROGRAM_SIZE); reflexivity.
Qed.

(* ===================================================================== *)
(** ** The properties of the two programs *)
(* ===================================================================== *)


(** C1.  Loader mode: when the sender supplies at least 256 bytes (by the
    end of [sched], at any pace and at any moments), then after [Stage3.enough]
    further steps of the program the receive loop is over: the destination
    buffer holds exactly the first 256 bytes sent, in the order sent -- the
    loop made 256 writes, the Nth byte sent to index N-1, no index skipped
    and none written twice -- and the program is in the slow-blink loop. *)
Theorem loader_stores_first_256_then_blinks ram0 sched more :
  (256 <= length (arrivals sched))%nat ->
  (Stage3.enough <= ticks more)%nat ->
  let c := run (sched ++ more) (boot Stage3.main ram0) in
  Stage3.succeeded c
  /\ Stage3.buffer (env c) = firstn 256 (arrivals sched)
  /\ stores (env c) = Stage3.slots (firstn 256 (arrivals sched))
  /\ (forall N, (1 <= N <= 256)%nat ->
      nth_error (arrivals sched) (N - 1)
      = Some (ram (env c) (Stage3.RAM_LOAD_ADDRESS + Z.of_nat (N - 1)))).
Proof.
  intros Hlen Hticks. cbn zeta.
  destruct (stage3_trace ram0 (sched ++ more)) as [Hat [Henv Hinv]].
  pose proof (stage3_completes ram0 sched more Hlen Hticks) as Hblink.
  pose proof (stage3_blinking_finished _ Hblink) as Hfin.
  destruct (stage3_loaded _ _ _ _ Hinv Hfin) as [Hb [_ [Hs [_ Hn]]]].
  rewrite arrivals_app in Hb, Hs, Hn.
  rewrite firstn_more in Hb, Hs by exact Hlen.
  rewrite Henv. split; [|split; [|split]]; auto.
  - eexists. split; [exact Hblink | exact Hat].
  - intros N HN. rewrite <- (Hn N HN).
    rewrite nth_error_app1 by lia. reflexivity.
Qed.

(** The 256 byte values, sent before the loader starts, are in the buffer
    after 799 steps. *)
Lemma loader_stores_first_256_then_blinks_witness :
  (256 <= length (arrivals Stage3.sample_schedule))%nat
  /\ (Stage3.enough <= ticks (repeat Tick 799))%nat
  /\ let c := run (Stage3.sample_schedule ++ repeat Tick 799)
                (boot Stage3.main (fun _ => x00)) in
     Stage3.succeeded c
     /\ Stage3.buffer (env c) = firstn 256 (arrivals Stage3.sample_schedule)
     /\ stores (env c)
        = Stage3.slots (firstn 256 (arrivals Stage3.sample_schedule))
     /\ (forall N, (1 <= N <= 256)%nat ->
         nth_error (arrivals Stage3.sample_schedule) (N - 1)
         = Some (ram (env c)
                   (Stage3.RAM_LOAD_ADDRESS + Z.of_nat (N - 1)))).
Proof.
  split; [vm_compute; lia|]. split; [vm_compute; lia|].
  apply (loader_stores_first_256_then_blinks (fun _ => x00)
           Stage3.sample_schedule (repeat Tick 799));
    vm_compute; lia.
Defined.

(** C2.  Diagnostic mode: whatever bytes the sender has sent, at whatever
    moments ([sched]), once the line is silent for [Stage1.enough N] steps the
    program has read exactly the N bytes sent, one for each positive poll
    of the UART, has written back the same bytes in the same order, and
    has written the LED N times after the ready blinks, each write
    changing the level of the pin. *)
Theorem echo_returns_every_byte ram0 sched k :
  (Stage1.enough (length (arrivals sched)) <= k)%nat ->
  let c := run (sched ++ repeat Tick k) (boot Stage1.main ram0) in
  let N := length (arrivals sched) in
  tx (env c) = arrivals sched
  /\ taken (env c) = arrivals sched
  /\ rx (env c) = []
  /\ granted (polls (env c)) = N
  /\ wave (env c)
     = periods Stage1.LED_PIN 100 3 ++ toggles Stage1.LED_PIN false N
  /\ flips Stage1.LED_PIN false (wave (env c)) = (6 + N)%nat.
Proof.
  intros Hk. cbn zeta.
  destruct (stage1_settled ram0 sched k Hk) as [H1 [H2 [H3 [H4 H5]]]].
  repeat split; auto.
  rewrite H5. unfold Stage1.ready_wave.
  rewrite flips_app, flips_toggles. reflexivity.
Qed.

(** Two bytes, the second one sent while the first is being echoed. *)
Lemma echo_returns_every_byte_witness :
  (Stage1.enough (length (arrivals [Arrive x41; Tick; Arrive x42])) <= 29)%nat
  /\ let c := run ([Arrive x41; Tick; Arrive x42] ++ repeat Tick 29)
                (boot Stage1.main (fun _ => x00)) in
     let N := length (arrivals [Arrive x41; Tick; Arrive x42]) in
     tx (env c) = arrivals [Arrive x41; Tick; Arrive x42]
     /\ taken (env c) = arrivals [Arrive x41; Tick; Arrive x42]
     /\ rx (env c) = []
     /\ granted (polls (env c)) = N
     /\ wave (env c)
        = periods Stage1.LED_PIN 100 3 ++ toggles Stage1.LED_PIN false N
     /\ flips Stage1.LED_PIN false (wave (env c)) = (6 + N)%nat.
Proof.
  split; [vm_compute; lia|].
  apply (echo_returns_every_byte (fun _ => x00)
           [Arrive x41; Tick; Arrive x42] 29).
  vm_compute; lia.
Defined.

(** C3.  Loader mode: as long as the sender has supplied fewer than 256
    bytes, however long the program runs, it has not reached the success
    loop; from step [Stage3.lead_steps] on it is in the receive loop, where it has
    stored what it could read and waits, and the LED wave form has not
    gone beyond "solid on".  No schedule is a time-out. *)
Theorem loader_waits_below_256 ram0 sched :
  (length (arrivals sched) < 256)%nat ->
  let c := run sched (boot Stage3.main ram0) in
  ~ Stage3.succeeded c
  /\ ((Stage3.lead_steps <= ticks sched)%nat -> Stage3.in_receive c)
  /\ (length (stores (env c)) < 256)%nat
  /\ prefix (wave (env c)) Stage3.solid_wave.
Proof.
  intros Hlen. cbn zeta.
  destruct (stage3_trace ram0 sched) as [Hat [Henv Hinv]].
  set (pw := run_at Stage3.next sched (Stage3.start ram0)) in *.
  pose proof (Stage3.inv_wf _ _ _ _ Hinv) as Hwf.
  assert (Hcount : (Stage3.count (fst pw) < 256)%nat).
  { rewrite <- (Stage3.inv_count _ _ _ _ Hinv).
    rewrite (Stage3.inv_sent _ _ _ _ Hinv), length_app in Hlen. lia. }
  assert (Hnf : Stage3.finished (fst pw) = false).
  { destruct (Stage3.finished (fst pw)) eqn:Hf; [|reflexivity].
    apply (stage3_finished_count _ Hwf) in Hf.
    change (Z.to_nat Stage3.PROGRAM_SIZE) with 256%nat in Hf. lia. }
  split; [|split; [|split]].
  - intros [q [Hq Hs]].
    destruct (stage3_same_phase _ _ _ Hat Hs) as [Hfin _].
    rewrite (stage3_blinking_finished _ Hq) in Hfin. congruence.
  - intros Hticks. exists (fst pw). split; [exact Hwf|]. split; [|exact Hat].
    assert (Hst : Stage3.started (fst pw) = true).
    { unfold pw, Stage3.start.
      apply (stage3_starts ram0 sched [] _ _ (stage3_power_on ram0)).
      unfold Stage3.lead_steps in Hticks. cbn. lia. }
    unfold Stage3.started in Hst. rewrite Hnf, orb_false_r in Hst. exact Hst.
  - rewrite Henv, (Stage3.inv_stores _ _ _ _ Hinv), slots_length.
    rewrite (Stage3.inv_count _ _ _ _ Hinv). exact Hcount.
  - rewrite Henv, (Stage3.inv_wave _ _ _ _ Hinv).
    apply stage3_wave_prefix; assumption.
Qed.

(** Three bytes and a long wait. *)
Lemma loader_waits_below_256_witness :
  (length (arrivals ([Arrive x41; Arrive x42; Arrive x43]
                       ++ repeat Tick 100)) < 256)%nat
  /\ let c := run ([Arrive x41; Arrive x42; Arrive x43] ++ repeat Tick 100)
                (boot Stage3.main (fun _ => x00)) in
     ~ Stage3.succeeded c
     /\ ((Stage3.lead_steps
          <= ticks ([Arrive x41; Arrive x42; Arrive x43]
                      ++ repeat Tick 100))%nat ->
         Stage3.in_receive c)
     /\ (length (stores (env c)) < 256)%nat
     /\ prefix (wave (env c)) Stage3.solid_wave.
Proof.
  split; [vm_compute; lia|].
  apply (loader_waits_below_256 (fun _ => x00)
           ([Arrive x41; Arrive x42; Arrive x43] ++ repeat Tick 100)).
  vm_compute; lia.
Defined.

(** C4.  Loader mode: once 256 bytes have been read, whatever the sender
    and the program do afterwards ([more]), nothing further is read or even
    polled for, nothing further is written to memory, every later byte
    stays in the receive queue, and the program is in the success loop. *)
Theorem loader_reads_nothing_after_256 ram0 sched more :
  let c := run sched (boot Stage3.main ram0) in
  let c' := run (sched ++ more) (boot Stage3.main ram0) in
  length (taken (env c)) = 256%nat ->
  taken (env c') = taken (env c)
  /\ polls (env c') = polls (env c)
  /\ stores (env c') = stores (env c)
  /\ ram (env c') = ram (env c)
  /\ rx (env c') = rx (env c) ++ arrivals more
  /\ Stage3.succeeded c'
  /\ ~ Stage3.in_receive c'.
Proof.
  cbn zeta. intros Htaken.
  destruct (stage3_trace ram0 (sched ++ more)) as [Hat' [Henv' Hinv']].
  destruct (stage3_trace ram0 sched) as [Hat [Henv Hinv]].
  rewrite run_at_app in Hat', Henv', Hinv'.
  remember (run_at Stage3.next sched (Stage3.start ram0)) as pw eqn:E.
  destruct pw as [p w]. cbn [fst snd] in *.
  assert (Hfin : Stage3.finished p = true).
  { apply (stage3_finished_count _ (Stage3.inv_wf _ _ _ _ Hinv)).
    rewrite <- (Stage3.inv_count _ _ _ _ Hinv), <- Henv. exact Htaken. }
  destruct (stage3_finished_run more p w Hfin)
    as [H1 [H2 [H3 [H4 [H5 [H6 [H7 H8]]]]]]].
  rewrite Henv', Henv. repeat split; auto.
  - apply (stage3_finished_succeeded _ _ H1 Hat').
  - intros [q [Hwq [Hq Hs]]].
    destruct (stage3_same_phase _ _ _ Hat' Hs) as [_ Hrecv].
    rewrite Hq in Hrecv.
    pose proof (stage3_receiving_count _ (Stage3.inv_wf _ _ _ _ Hinv')
                  Hrecv) as Hc.
    apply (stage3_finished_count _ (Stage3.inv_wf _ _ _ _ Hinv')) in H1.
    change (Z.to_nat Stage3.PROGRAM_SIZE) with 256%nat in H1. lia.
Qed.

(** A complete transfer, then one more byte and ten more steps. *)
Lemma loader_reads_nothing_after_256_witness :
  length (taken (env (run (Stage3.sample_schedule ++ repeat Tick 799)
                        (boot Stage3.main (fun _ => x00))))) = 256%nat
  /\ let c := run (Stage3.sample_schedule ++ repeat Tick 799)
                (boot Stage3.main (fun _ => x00)) in
     let c' := run ((Stage3.sample_schedule ++ repeat Tick 799)
                      ++ Arrive x41 :: repeat Tick 10)
                 (boot Stage3.main (fun _ => x00)) in
     taken (env c') = taken (env c)
     /\ polls (env c') = polls (env c)
     /\ stores (env c') = stores (env c)
     /\ ram (env c') = ram (env c)
     /\ rx (env c') = rx (env c) ++ arrivals (Arrive x41 :: repeat Tick 10)
     /\ Stage3.succeeded c'
     /\ ~ Stage3.in_receive c'.
Proof.
  split; [vm_compute; reflexivity|].
  apply (loader_reads_nothing_after_256 (fun _ => x00)
           (Stage3.sample_schedule ++ repeat Tick 799)
           (Arrive x41 :: repeat Tick 10)).
  vm_compute; reflexivity.
Defined.


(** C6.  Ready phase, for every schedule (so whatever arrives on the
    serial line meanwhile).  Diagnostic: until the main loop is entered the
    LED wave form is an initial segment of three periods "on, 100 ms, off,
    100 ms"; in the main loop it is these three periods followed by echo
    toggles only; the loop is entered after [Stage1.lead_steps] steps.
    Loader: until the receive loop is entered the wave form is an initial
    segment of five periods "on, 50 ms, off, 50 ms", the pause of 200 ms and
    the LED switched on; from the receive loop on it starts with exactly
    that; the loop is entered after [Stage3.lead_steps] steps. *)
Theorem ready_phase_blinks_3_and_5_times ram0 sched :
  let c1 := run sched (boot Stage1.main ram0) in
  let c3 := run sched (boot Stage3.main ram0) in
  ((~ Stage1.in_main_loop c1 ->
      prefix (wave (env c1)) (periods Stage1.LED_PIN 100 3))
   /\ (Stage1.in_main_loop c1 ->
       exists n, wave (env c1)
                 = periods Stage1.LED_PIN 100 3
                     ++ toggles Stage1.LED_PIN false n)
   /\ ((Stage1.lead_steps <= ticks sched)%nat -> Stage1.in_main_loop c1))
  /\
  ((~ Stage3.in_receive c3 /\ ~ Stage3.succeeded c3 ->
      prefix (wave (env c3))
        (periods Stage3.LED_PIN 50 5
           ++ [Hold 200; Level Stage3.LED_PIN true]))
   /\ (Stage3.in_receive c3 \/ Stage3.succeeded c3 ->
       prefix
         (periods Stage3.LED_PIN 50 5
            ++ [Hold 200; Level Stage3.LED_PIN true])
         (wave (env c3)))
   /\ ((Stage3.lead_steps <= ticks sched)%nat ->
       Stage3.in_receive c3 \/ Stage3.succeeded c3)).
Proof.
  cbn zeta. split.
  - destruct (stage1_trace ram0 sched) as [Hat [Henv Hinv]].
    set (pw := run_at Stage1.next sched (Stage1.start ram0)) in *.
    pose proof (Stage1.inv_wf _ _ _ _ Hinv) as Hwf.
    rewrite Henv, (Stage1.inv_wave _ _ _ _ Hinv).
    split; [|split].
    + intros Hn. apply stage1_wave_before; auto.
      apply (stage1_before_loop _ _ Hat Hwf Hn).
    + intros Hl. apply (stage1_in_loop _ _ Hat) in Hl.
      destruct (stage1_wave_in_loop _ Hwf Hl) as [n [Hw _]].
      exists n. exact Hw.
    + intros Hticks. exists (fst pw). split; [exact Hwf|]. split; [|exact Hat].
      unfold pw, Stage1.start.
      apply (stage1_starts ram0 sched [] _ _ (stage1_power_on ram0)).
      unfold Stage1.lead_steps in Hticks. cbn. lia.
  - destruct (stage3_trace ram0 sched) as [Hat [Henv Hinv]].
    set (pw := run_at Stage3.next sched (Stage3.start ram0)) in *.
    pose proof (Stage3.inv_wf _ _ _ _ Hinv) as Hwf.
    rewrite Henv, (Stage3.inv_wave _ _ _ _ Hinv).
    change (periods Stage3.LED_PIN 50 5
              ++ [Hold 200; Level Stage3.LED_PIN true])
      with Stage3.solid_wave.
    split; [|split].
    + intros [Hr Hs]. apply stage3_wave_prefix; auto.
      pose proof (stage3_before_start _ _ Hat Hwf Hr Hs) as Hst.
      unfold Stage3.started in Hst. apply orb_false_elim in Hst. tauto.
    + intros Hph. apply stage3_wave_started.
      apply (stage3_after_start _ _ Hat Hph).
    + intros Hticks. apply (stage3_started_phase _ _ Hat Hwf).
      unfold pw, Stage3.start.
      apply (stage3_starts ram0 sched [] _ _ (stage3_power_on ram0)).
      unfold Stage3.lead_steps in Hticks. cbn. lia.
Qed.

(** C7.  Loader, active phase, read off what the board has recorded: at
    every moment from step [Stage3.lead_steps] on at which fewer than 256
    bytes have been read -- that is throughout the receive loop, whatever
    has arrived and however long the loader has waited -- the wave form of
    the LED is exactly the one the loop was entered with (five fast
    periods, the pause, and the LED switched on), so the pin is high and
    no statement of the loop has written to it; the program stands in the
    receive loop; the next step, be it a poll, the body of the busy wait,
    a store (the 256th included) or a jump, leaves the wave form as it is;
    and at every earlier moment of the run either nothing had been polled,
    read or stored yet, or the wave form was this one already: the pin was
    switched on before the first poll of the UART and before the first
    byte was read. *)
Theorem loader_led_held_while_receiving ram0 sched :
  let c := run sched (boot Stage3.main ram0) in
  let c' := run (sched ++ [Tick]) (boot Stage3.main ram0) in
  (Stage3.lead_steps <= ticks sched)%nat ->
  (length (taken (env c)) < 256)%nat ->
  wave (env c) = Stage3.solid_wave
  /\ pin_level Stage3.LED_PIN false (wave (env c)) = true
  /\ Stage3.in_receive c
  /\ wave (env c') = Stage3.solid_wave
  /\ (forall s1 s2, sched = s1 ++ s2 ->
      let c1 := run s1 (boot Stage3.main ram0) in
      (polls (env c1) = [] /\ taken (env c1) = [] /\ stores (env c1) = [])
      \/ wave (env c1) = Stage3.solid_wave).
Proof.
  cbn zeta. intros Hticks Htaken.
  destruct (stage3_trace ram0 sched) as [Hat [Henv Hinv]].
  rewrite Henv in Htaken |- *.
  pose proof (Stage3.inv_wf _ _ _ _ Hinv) as Hwf.
  pose proof (Stage3.inv_count _ _ _ _ Hinv) as Hcount.
  pose proof (stage3_started_from ram0 sched Hticks) as Hst.
  rewrite Hcount in Htaken.
  pose proof (stage3_started_receiving _ Hwf Hst Htaken) as Hrecv.
  rewrite (Stage3.inv_wave _ _ _ _ Hinv), (stage3_wave_receiving _ Hrecv).
  split; [reflexivity|]. split; [reflexivity|].
  split; [eexists; split; [exact Hwf|]; split; [exact Hrecv | exact Hat]|].
  split.
  - destruct (stage3_trace ram0 (sched ++ [Tick])) as [_ [Henv' Hinv']].
    rewrite Henv', (Stage3.inv_wave _ _ _ _ Hinv'), run_at_app.
    cbn [run_at fold_left react_at].
    rewrite (surjective_pairing (run_at Stage3.next sched (Stage3.start ram0))).
    apply stage3_receive_step. exact Hrecv.
  - intros s1 s2 ->. cbn zeta.
    destruct (stage3_trace ram0 s1) as [_ [Henv1 Hinv1]]. rewrite Henv1.
    set (pw1 := run_at Stage3.next s1 (Stage3.start ram0)) in *.
    pose proof (Stage3.inv_wf _ _ _ _ Hinv1) as Hwf1.
    destruct (Stage3.started (fst pw1)) eqn:Hst1.
    + right. rewrite (Stage3.inv_wave _ _ _ _ Hinv1).
      apply stage3_wave_receiving. unfold Stage3.started in Hst1.
      destruct (Stage3.finished (fst pw1)) eqn:Hf1;
        [|rewrite orb_false_r in Hst1; exact Hst1].
      exfalso. rewrite run_at_app in Hrecv, Hwf. fold pw1 in Hrecv, Hwf.
      rewrite (surjective_pairing pw1) in Hrecv, Hwf.
      destruct (stage3_finished_run s2 _ (snd pw1) Hf1) as [Hf _].
      apply (stage3_finished_count _ Hwf) in Hf.
      apply (stage3_receiving_count _ Hwf) in Hrecv.
      unfold Stage3.PROGRAM_SIZE in Hf. lia.
    + left. pose proof (stage3_count_before _ Hwf1 Hst1) as Hc1.
      pose proof (Stage3.inv_count _ _ _ _ Hinv1) as Hl1.
      rewrite Hc1 in Hl1. apply length_zero_iff_nil in Hl1.
      split; [apply (Stage3.inv_quiet _ _ _ _ Hinv1 Hst1)|].
      split; [exact Hl1|].
      rewrite (Stage3.inv_stores _ _ _ _ Hinv1), Hl1. reflexivity.
Qed.

(** A whole image sent at once, and the loader about to store its last
    byte: 255 bytes are read, and the next step makes the 256th store. *)
Lemma loader_led_held_while_receiving_witness :
  let sched := Stage3.sample_schedule ++ repeat Tick 797 in
  let c := run sched (boot Stage3.main (fun _ => x00)) in
  let c' := run (sched ++ [Tick]) (boot Stage3.main (fun _ => x00)) in
  (Stage3.lead_steps <= ticks sched)%nat
  /\ (length (taken (env c)) < 256)%nat
  /\ (wave (env c) = Stage3.solid_wave
      /\ pin_level Stage3.LED_PIN false (wave (env c)) = true
      /\ Stage3.in_receive c
      /\ wave (env c') = Stage3.solid_wave
      /\ (forall s1 s2, sched = s1 ++ s2 ->
          let c1 := run s1 (boot Stage3.main (fun _ => x00)) in
          (polls (env c1) = [] /\ taken (env c1) = []
           /\ stores (env c1) = [])
          \/ wave (env c1) = Stage3.solid_wave))
  /\ length (stores (env c)) = 255%nat
  /\ length (stores (env c')) = 256%nat.
Proof.
  cbv zeta. split; [vm_compute; lia|]. split; [vm_compute; lia|].
  split.
  - apply (loader_led_held_while_receiving (fun _ => x00)
             (Stage3.sample_schedule ++ repeat Tick 797));
      vm_compute; lia.
  - split; vm_compute; reflexivity.
Defined.

(** C8.  Loader, success phase: once the program is in the success loop
    it stays there whatever happens ([more]): it never returns and never
    stands in the receive loop again, and the LED wave form after the
    solid phase is a run of periods "on, 500 ms, off, 500 ms" that grows
    with the number of steps made, one period every five steps. *)
Theorem loader_slow_blink_is_terminal ram0 sched more :
  let c := run sched (boot Stage3.main ram0) in
  let c' := run (sched ++ more) (boot Stage3.main ram0) in
  Stage3.succeeded c ->
  Stage3.succeeded c'
  /\ ~ Stage3.in_receive c'
  /\ (forall r, observe (prog c') <> RetF r)
  /\ exists n b,
       wave (env c')
       = Stage3.solid_wave ++ periods Stage3.LED_PIN 500 n
           ++ period_before Stage3.LED_PIN 500 b
       /\ (ticks more <= 5 * n + 5)%nat.
Proof.
  cbn zeta. intros [q [Hq Hs]].
  destruct (stage3_trace ram0 (sched ++ more)) as [Hat' [Henv' Hinv']].
  destruct (stage3_trace ram0 sched) as [Hat [Henv Hinv]].
  rewrite run_at_app in Hat', Henv', Hinv'.
  remember (run_at Stage3.next sched (Stage3.start ram0)) as pw eqn:E.
  destruct pw as [p w]. cbn [fst snd] in *.
  assert (Hfin : Stage3.finished p = true).
  { destruct (stage3_same_phase _ _ _ Hat Hs) as [Hfin _].
    rewrite (stage3_blinking_finished _ Hq) in Hfin. exact Hfin. }
  destruct (stage3_finished_run more p w Hfin) as [H1 [H2 _]].
  pose proof (Stage3.inv_wf _ _ _ _ Hinv') as Hwf'.
  split; [|split; [|split]].
  - apply (stage3_finished_succeeded _ _ H1 Hat').
  - intros [q' [Hwq [Hq' Hs']]].
    destruct (stage3_same_phase _ _ _ Hat' Hs') as [_ Hrecv].
    rewrite Hq' in Hrecv.
    pose proof (stage3_receiving_count _ Hwf' Hrecv) as Hc.
    apply (stage3_finished_count _ Hwf') in H1.
    change (Z.to_nat Stage3.PROGRAM_SIZE) with 256%nat in H1. lia.
  - apply (stands_at_running _ _ _ _ stage3_follows Hat').
  - destruct (stage3_beat_wave _ H1) as [n [b [Hw Hb]]].
    exists n, b. rewrite Henv', (Stage3.inv_wave _ _ _ _ Hinv'), Hw.
    split; [reflexivity | lia].
Qed.

(** A complete transfer, then ten more steps. *)
Lemma loader_slow_blink_is_terminal_witness :
  let c' := run ((Stage3.sample_schedule ++ repeat Tick 799)
                   ++ repeat Tick 10)
              (boot Stage3.main (fun _ => x00)) in
  Stage3.succeeded c'
  /\ ~ Stage3.in_receive c'
  /\ (forall r, observe (prog c') <> RetF r)
  /\ exists n b,
       wave (env c')
       = Stage3.solid_wave ++ periods Stage3.LED_PIN 500 n
           ++ period_before Stage3.LED_PIN 500 b
       /\ (ticks (repeat Tick 10) <= 5 * n + 5)%nat.
Proof.
  apply (loader_slow_blink_is_terminal (fun _ => x00)
           (Stage3.sample_schedule ++ repeat Tick 799) (repeat Tick 10)).
  apply stage3_succeeds; vm_compute; lia.
Defined.

(** C9.  For every schedule, so also when bytes arrive during the
    initialisation and the ready blinks: until its main loop is entered
    each program has neither polled the UART nor read from it, and all the
    bytes sent are still queued; the bytes read are at all times an
    initial segment of the bytes sent, so the first byte read is the first
    byte sent.  The diagnostic program echoes that byte first; the loader
    stores it first, at [RAM_LOAD_ADDRESS] (index 0 of the buffer). *)
Theorem first_byte_read_is_first_byte_sent ram0 sched :
  let c1 := run sched (boot Stage1.main ram0) in
  let c3 := run sched (boot Stage3.main ram0) in
  ((~ Stage1.in_main_loop c1 ->
      polls (env c1) = [] /\ taken (env c1) = []
      /\ rx (env c1) = arrivals sched)
   /\ prefix (taken (env c1)) (arrivals sched)
   /\ prefix (tx (env c1)) (arrivals sched)
   /\ (forall b, hd_error (tx (env c1)) = Some b ->
       hd_error (arrivals sched) = Some b))
  /\
  ((~ Stage3.in_receive c3 /\ ~ Stage3.succeeded c3 ->
      polls (env c3) = [] /\ taken (env c3) = []
      /\ rx (env c3) = arrivals sched)
   /\ prefix (taken (env c3)) (arrivals sched)
   /\ (forall b, hd_error (taken (env c3)) = Some b ->
       hd_error (arrivals sched) = Some b
       /\ hd_error (stores (env c3)) = Some (Stage3.RAM_LOAD_ADDRESS, b)
       /\ hd_error (Stage3.buffer (env c3)) = Some b)).
Proof.
  cbn zeta. split.
  - destruct (stage1_trace ram0 sched) as [Hat [Henv Hinv]].
    set (pw := run_at Stage1.next sched (Stage1.start ram0)) in *.
    pose proof (Stage1.inv_wf _ _ _ _ Hinv) as Hwf.
    pose proof (Stage1.inv_sent _ _ _ _ Hinv) as Hsent.
    pose proof (Stage1.inv_tx _ _ _ _ Hinv) as Htx.
    rewrite Henv.
    assert (Hp : prefix (taken (snd pw)) (arrivals sched))
      by (exists (rx (snd pw)); exact Hsent).
    assert (Hq : prefix (tx (snd pw)) (arrivals sched)).
    { apply (prefix_trans _ (taken (snd pw))); auto.
      exists (Stage1.in_hand (fst pw)). exact Htx. }
    split; [|split; [|split]]; auto.
    + intros Hn. pose proof (stage1_before_loop _ _ Hat Hwf Hn) as Hl.
      pose proof (Stage1.inv_count _ _ _ _ Hinv) as Hcount.
      assert (Ht : taken (snd pw) = []).
      { destruct (taken (snd pw)); [reflexivity|].
        destruct (fst pw); cbn in Hl, Hcount; discriminate. }
      split; [apply (Stage1.inv_quiet _ _ _ _ Hinv Hl)|].
      split; [exact Ht|]. rewrite Hsent, Ht. reflexivity.
    + intros b Hb. apply (prefix_hd _ _ _ Hq Hb).
  - destruct (stage3_trace ram0 sched) as [Hat [Henv Hinv]].
    set (pw := run_at Stage3.next sched (Stage3.start ram0)) in *.
    pose proof (Stage3.inv_wf _ _ _ _ Hinv) as Hwf.
    pose proof (Stage3.inv_sent _ _ _ _ Hinv) as Hsent.
    rewrite Henv.
    assert (Hp : prefix (taken (snd pw)) (arrivals sched))
      by (exists (rx (snd pw)); exact Hsent).
    split; [|split]; auto.
    + intros [Hr Hs]. pose proof (stage3_before_start _ _ Hat Hwf Hr Hs) as Hst.
      pose proof (Stage3.inv_count _ _ _ _ Hinv) as Hcount.
      assert (Ht : taken (snd pw) = []).
      { destruct (taken (snd pw)) eqn:Et; [reflexivity|].
        assert (Hc : (0 < Stage3.count (fst pw))%nat)
          by (rewrite <- Hcount; cbn; lia).
        rewrite (stage3_count_started _ Hwf Hc) in Hst. discriminate. }
      split; [apply (Stage3.inv_quiet _ _ _ _ Hinv Hst)|].
      split; [exact Ht|]. rewrite Hsent, Ht. reflexivity.
    + intros b Hb. split; [apply (prefix_hd _ _ _ Hp Hb)|].
      rewrite (Stage3.inv_stores _ _ _ _ Hinv).
      destruct (taken (snd pw)) as [|b0 l] eqn:Et; [discriminate|].
      injection Hb as ->. split.
      * unfold Stage3.slots. cbn [length seq List.map combine hd_error].
        rewrite Z.add_0_r. reflexivity.
      * unfold Stage3.buffer.
        change (Z.to_nat Stage3.PROGRAM_SIZE) with 256%nat.
        cbn [seq List.map hd_error]. rewrite (Stage3.inv_ram _ _ _ _ Hinv), Et.
        unfold Stage3.loaded. cbn [length Z.of_nat].
        replace (Stage3.RAM_LOAD_ADDRESS <=? _) with true
          by (symmetry; apply Z.leb_le; lia).
        replace (_ <? _) with true by (symmetry; apply Z.ltb_lt; lia).
        cbn [andb]. replace (Z.to_nat _) with O by lia. reflexivity.
Qed.



(* ===================================================================== *)
(** * Further properties of the two programs *)
(* ===================================================================== *)

(* ===================================================================== *)
(** ** Neither program returns or waits inside a call *)
(* ===================================================================== *)

Lemma stands_at_goes {P} (tree_of : P -> itree stmtE Z) next c p :
  (forall q, follows tree_of next q) ->
  stands_at tree_of c p ->
  returned c = false
  /\ blocked c
     = match next p with
       | Jump _ => false
       | Stmt s _ =>
           match exec s (env c) with
           | Some _ => false
           | None => true
           end
       end.
Proof.
  intros Hnext Hp. unfold stands_at in Hp. unfold returned, blocked.
  pose proof (Hnext p) as Hn. unfold follows in Hn.
  destruct (next p) as [p' | T s k]; rewrite Hn in Hp.
  - apply eqitree_inv_Tau_r in Hp. destruct Hp as [t0 [-> _]]. auto.
  - apply eqitree_inv_Vis_r in Hp. destruct Hp as [k' [-> _]]. auto.
Qed.

Lemma stage3_goes ram0 sent p w :
  Stage3.invariant ram0 sent p w ->
  match Stage3.next p with
  | Jump _ => false
  | Stmt s _ =>
      match exec s w with
      | Some _ => false
      | None => true
      end
  end = false.
Proof.
  intros H. pose proof (Stage3.inv_queued _ _ _ _ H) as Hq.
  destruct p as [[] | i [] | i | | | i | i | i | i | i | n [] | n];
    cbn [Stage3.next exec perform Stage3.announced] in *; try reflexivity.
  destruct (rx w); [elim (Hq eq_refl eq_refl) | reflexivity].
Qed.

Lemma stage1_goes ram0 sent p w :
  Stage1.invariant ram0 sent p w ->
  match Stage1.next p with
  | Jump _ => false
  | Stmt s _ =>
      match exec s w with
      | Some _ => false
      | None => true
      end
  end = false.
Proof.
  intros H. pose proof (Stage1.inv_queued _ _ _ _ H) as Hq.
  destruct p as [[] | i [] | i | n s | n s | n s b | n s b | n s];
    cbn [Stage1.next exec perform Stage1.announced] in *; try reflexivity.
  destruct (rx w); [elim (Hq eq_refl eq_refl) | reflexivity].
Qed.

(** X1.  The loader never returns from [main] and never waits inside
    [uart_getc]: at every moment of every run the next step of the program
    is a jump or a statement that completes at once, because line 56 is
    reached only after [uart_is_readable] has answered yes and nothing
    else takes bytes from the queue. *)
Theorem loader_never_returns_nor_blocks ram0 sched :
  let c := run sched (boot Stage3.main ram0) in
  returned c = false /\ blocked c = false.
Proof.
  cbn zeta. destruct (stage3_trace ram0 sched) as [Hat [He Hinv]].
  destruct (stands_at_goes _ _ _ _ stage3_follows Hat) as [Hr Hb].
  split; [exact Hr|]. rewrite Hb, He. apply (stage3_goes _ _ _ _ Hinv).
Qed.

(** X2.  The echo test never returns from [main] and never waits inside
    [uart_getc]: line 40 is reached only after [uart_is_readable] has
    answered yes at line 39. *)
Theorem echo_never_returns_nor_blocks ram0 sched :
  let c := run sched (boot Stage1.main ram0) in
  returned c = false /\ blocked c = false.
Proof.
  cbn zeta. destruct (stage1_trace ram0 sched) as [Hat [He Hinv]].
  destruct (stands_at_goes _ _ _ _ stage1_follows Hat) as [Hr Hb].
  split; [exact Hr|]. rewrite Hb, He. apply (stage1_goes _ _ _ _ Hinv).
Qed.

(* ===================================================================== *)
(** ** The memory of the loader, the silence of its transmitter *)
(* ===================================================================== *)

Lemma slots_in bytes a v :
  In (a, v) (Stage3.slots bytes) ->
  Stage3.RAM_LOAD_ADDRESS <= a
  < Stage3.RAM_LOAD_ADDRESS + Z.of_nat (length bytes).
Proof.
  unfold Stage3.slots. intros H. apply in_combine_l in H.
  apply in_map_iff in H. destruct H as [k [<- Hk]].
  apply in_seq in Hk. lia.
Qed.

Lemma loaded_inside ram0 bytes k :
  (k < length bytes)%nat ->
  nth_error bytes k
  = Some (Stage3.loaded ram0 bytes (Stage3.RAM_LOAD_ADDRESS + Z.of_nat k)).
Proof.
  intros Hk. unfold Stage3.loaded.
  destruct (Z.leb_spec Stage3.RAM_LOAD_ADDRESS
              (Stage3.RAM_LOAD_ADDRESS + Z.of_nat k)); [|lia].
  destruct (Z.ltb_spec (Stage3.RAM_LOAD_ADDRESS + Z.of_nat k)
              (Stage3.RAM_LOAD_ADDRESS + Z.of_nat (length bytes))); [|lia].
  cbn [andb].
  replace (Z.to_nat (Stage3.RAM_LOAD_ADDRESS + Z.of_nat k
                     - Stage3.RAM_LOAD_ADDRESS)) with k by lia.
  apply nth_error_nth'. exact Hk.
Qed.

Lemma loaded_outside ram0 bytes a :
  ~ (Stage3.RAM_LOAD_ADDRESS <= a
     < Stage3.RAM_LOAD_ADDRESS + Z.of_nat (length bytes)) ->
  Stage3.loaded ram0 bytes a = ram0 a.
Proof.
  intros Ha. unfold Stage3.loaded.
  destruct (Z.leb_spec Stage3.RAM_LOAD_ADDRESS a);
    destruct (Z.ltb_spec a
                (Stage3.RAM_LOAD_ADDRESS + Z.of_nat (length bytes)));
    cbn [andb]; try reflexivity.
  elim Ha. lia.
Qed.

(** X3.  The memory of the loader at every moment of every run, also in
    the middle of a transfer and when the transfer never completes: when
    [n] bytes have been read, the first [n] bytes of the buffer are the
    first [n] bytes sent, in order, and every other byte of the memory --
    the rest of the buffer and all that lies outside it -- is as it was at
    power on; no write ever goes to an address outside the 256 bytes from
    [RAM_LOAD_ADDRESS] on. *)
Theorem loader_memory_at_every_moment ram0 sched :
  let c := run sched (boot Stage3.main ram0) in
  let n := length (taken (env c)) in
  (n <= 256)%nat
  /\ (forall k, (k < n)%nat ->
      nth_error (arrivals sched) k
      = Some (ram (env c) (Stage3.RAM_LOAD_ADDRESS + Z.of_nat k)))
  /\ (forall a,
      ~ (Stage3.RAM_LOAD_ADDRESS <= a < Stage3.RAM_LOAD_ADDRESS + Z.of_nat n) ->
      ram (env c) a = ram0 a)
  /\ (forall a v, In (a, v) (stores (env c)) ->
      Stage3.RAM_LOAD_ADDRESS <= a
      < Stage3.RAM_LOAD_ADDRESS + Stage3.PROGRAM_SIZE).
Proof.
  cbn zeta. destruct (stage3_trace ram0 sched) as [_ [He Hinv]].
  rewrite He. set (pw := run_at Stage3.next sched (Stage3.start ram0)) in *.
  destruct Hinv as [Hwf Hsent Hcount _ _ _ _ _ Hstores Hram].
  pose proof (stage3_count_bound _ Hwf) as Hb. rewrite <- Hcount in Hb.
  unfold Stage3.PROGRAM_SIZE in *.
  split; [lia|]. split; [|split].
  - intros k Hk. rewrite Hram, Hsent, nth_error_app1 by exact Hk.
    apply loaded_inside. exact Hk.
  - intros a Ha. rewrite Hram. apply loaded_outside. exact Ha.
  - intros a v Hin. rewrite Hstores in Hin. apply slots_in in Hin. lia.
Qed.

(** X4.  What the two programs leave alone, at every moment of every run:
    the loader transmits nothing on the serial line (it acknowledges
    neither a byte nor the whole image), and the echo test writes nothing
    to memory. *)
Theorem loader_sends_nothing_echo_stores_nothing ram0 sched :
  let c1 := run sched (boot Stage1.main ram0) in
  let c3 := run sched (boot Stage3.main ram0) in
  tx (env c3) = []
  /\ stores (env c1) = []
  /\ (forall a, ram (env c1) a = ram0 a).
Proof.
  cbn zeta. destruct (stage3_trace ram0 sched) as [_ [He3 H3]].
  destruct (stage1_trace ram0 sched) as [_ [He1 H1]].
  rewrite He3, He1. split; [apply (Stage3.inv_tx _ _ _ _ H3)|].
  split; [apply (Stage1.inv_stores _ _ _ _ H1)|].
  intros a. rewrite (Stage1.inv_ram _ _ _ _ H1). reflexivity.
Qed.

(* ===================================================================== *)
(** ** The order of read, toggle and echo *)
(* ===================================================================== *)

Lemma pin_level_periods gpio ms n rest : forall level,
  pin_level gpio level (periods gpio ms (S n) ++ rest)
  = pin_level gpio false rest.
Proof.
  induction n as [|n IH]; intros level.
  - cbn [periods app pin_level]. rewrite Z.eqb_refl. reflexivity.
  - change (periods gpio ms (S (S n)))
      with ([Level gpio true; Hold ms; Level gpio false; Hold ms]
              ++ periods gpio ms (S n)).
    rewrite <- app_assoc. cbn [app pin_level]. rewrite Z.eqb_refl. apply IH.
Qed.

Lemma pin_level_toggles gpio n : forall level,
  pin_level gpio level (toggles gpio level n) = xorb level (Nat.odd n).
Proof.
  induction n as [|n IH]; intros level; cbn [toggles pin_level].
  - destruct level; reflexivity.
  - rewrite Z.eqb_refl, IH, Nat.odd_succ, <- Nat.negb_odd.
    destruct level, (Nat.odd n); reflexivity.
Qed.

(** X5.  The echo test handles one byte at a time, in the order read,
    toggle, echo (lines 40, 44, 47): at every moment of every run the
    bytes read are the bytes echoed followed by at most one byte still in
    hand; each read follows a positive poll; and in the main loop the LED
    has been written [m] times since the ready blinks, where [m] lies
    between the number of bytes echoed and the number of bytes read, and
    the pin is high exactly when [m] is odd.  The same holds at every
    moment from step [Stage1.lead_steps] on. *)
Theorem echo_toggles_between_read_and_echo ram0 sched :
  let c := run sched (boot Stage1.main ram0) in
  (exists pending,
     taken (env c) = tx (env c) ++ pending /\ (length pending <= 1)%nat)
  /\ (length (taken (env c)) <= granted (polls (env c))
      <= S (length (taken (env c))))%nat
  /\ (Stage1.in_main_loop c ->
      exists m,
        wave (env c)
        = periods Stage1.LED_PIN 100 3 ++ toggles Stage1.LED_PIN false m
        /\ (length (tx (env c)) <= m <= length (taken (env c)))%nat
        /\ pin_level Stage1.LED_PIN false (wave (env c)) = Nat.odd m)
  /\ ((Stage1.lead_steps <= ticks sched)%nat ->
      exists m,
        wave (env c)
        = periods Stage1.LED_PIN 100 3 ++ toggles Stage1.LED_PIN false m
        /\ (length (tx (env c)) <= m <= length (taken (env c)))%nat
        /\ pin_level Stage1.LED_PIN false (wave (env c)) = Nat.odd m).
Proof.
  cbn zeta. destruct (stage1_trace ram0 sched) as [Hat [He Hinv]].
  rewrite He.
  pose proof (stage1_in_loop_from ram0 sched) as Hfrom.
  set (pw := run_at Stage1.next sched (Stage1.start ram0)) in *.
  destruct Hinv as [Hwf _ Hcount Hpolls _ _ Htx Hwave _ _].
  split; [|split].
  - exists (Stage1.in_hand (fst pw)). split; [exact Htx|].
    destruct (fst pw); cbn [Stage1.in_hand length]; lia.
  - rewrite Hpolls, Hcount.
    destruct (fst pw); cbn [Stage1.announced]; lia.
  - assert (Hcore : Stage1.in_loop (fst pw) = true ->
      exists m,
        wave (snd pw)
        = periods Stage1.LED_PIN 100 3 ++ toggles Stage1.LED_PIN false m
        /\ (length (tx (snd pw)) <= m <= length (taken (snd pw)))%nat
        /\ pin_level Stage1.LED_PIN false (wave (snd pw)) = Nat.odd m);
      [|split; [intros Hloop; apply Hcore, (stage1_in_loop _ _ Hat Hloop)
               |intros Hticks; apply Hcore, Hfrom, Hticks]].
    intros Hin.
    apply (f_equal (@length byte)) in Htx. rewrite length_app in Htx.
    rewrite Hwave, Hcount in *. clear Hat Hfrom Hpolls Hwave He.
    assert (Hm : forall m,
      pin_level Stage1.LED_PIN false
        (Stage1.ready_wave ++ toggles Stage1.LED_PIN false m) = Nat.odd m).
    { intros m. unfold Stage1.ready_wave.
      rewrite pin_level_periods, pin_level_toggles. reflexivity. }
    destruct (fst pw) as [[] | i [] | i | n s | n s | n s b | n s b | n s];
      cbn [Stage1.in_loop Stage1.wave_of Stage1.count Stage1.in_hand
           Stage1.wf length] in *;
      try discriminate.
    + destruct (Z.ltb_spec (i + 1) 3); [discriminate|].
      exists O. replace (Z.to_nat i) with 2%nat by lia.
      split; [symmetry; apply app_nil_r|]. split; [lia|]. reflexivity.
    + exists n. split; [reflexivity|]. split; [lia | apply Hm].
    + exists n. split; [reflexivity|]. split; [lia | apply Hm].
    + exists (Nat.pred n). split; [reflexivity|]. split; [lia | apply Hm].
    + exists n. split; [reflexivity|]. split; [lia | apply Hm].
    + exists n. split; [reflexivity|]. split; [lia | apply Hm].
Qed.

(* ===================================================================== *)
(** ** The phases are passed in one direction *)
(* ===================================================================== *)

Lemma stage3_started_step p w :
  Stage3.started p = true ->
  Stage3.started (fst (advance Stage3.next (p, w))) = true.
Proof.
  unfold advance, Stage3.started. cbn [fst snd].
  destruct p as [[] | i [] | i | | | i | i | i | i | i | n [] | n];
    cbn [Stage3.receiving Stage3.finished orb]; try discriminate; intros _;
    cbn [Stage3.next exec perform fst snd]; try reflexivity.
  - destruct (rx w); reflexivity.
  - destruct (rx w); cbn [fst Stage3.receiving Stage3.finished];
      [reflexivity|].
    destruct (i + 1 <? Stage3.PROGRAM_SIZE); reflexivity.
  - destruct (i + 1 <? Stage3.PROGRAM_SIZE); reflexivity.
Qed.

Lemma stage3_started_run more : forall p w,
  Stage3.started p = true ->
  Stage3.started (fst (run_at Stage3.next more (p, w))) = true.
Proof.
  induction more as [|[|b] more IH]; intros p w H;
    cbn [run_at fold_left react_at fst snd].
  - exact H.
  - rewrite (surjective_pairing (advance Stage3.next (p, w))).
    apply IH. apply stage3_started_step. exact H.
  - apply IH. exact H.
Qed.

Lemma stage1_in_loop_step p w :
  Stage1.in_loop p = true ->
  Stage1.in_loop (fst (advance Stage1.next (p, w))) = true.
Proof.
  unfold advance. cbn [fst snd].
  destruct p as [[] | i [] | i | n s | n s | n s b | n s b | n s];
    cbn [Stage1.in_loop]; try discriminate; intros H;
    cbn [Stage1.next exec perform fst snd]; try reflexivity.
  - destruct (i + 1 <? 3); [discriminate | reflexivity].
  - destruct (rx w); reflexivity.
  - destruct (rx w); reflexivity.
Qed.

Lemma stage1_in_loop_run more : forall p w,
  Stage1.in_loop p = true ->
  Stage1.in_loop (fst (run_at Stage1.next more (p, w))) = true.
Proof.
  induction more as [|[|b] more IH]; intros p w H;
    cbn [run_at fold_left react_at fst snd].
  - exact H.
  - rewrite (surjective_pairing (advance Stage1.next (p, w))).
    apply IH. apply stage1_in_loop_step. exact H.
  - apply IH. exact H.
Qed.

(** X6.  The loops of both programs are entered once and for all,
    whatever the sender and the program do afterwards ([more]): the echo
    test never leaves its main loop; the loader, once past the ready
    blinks, is in the receive loop or in the success loop ever after, so
    the ready blinks are never shown a second time.  Both loops are
    entered by step [Stage1.lead_steps] resp. [Stage3.lead_steps], so
    from then on the programs are in them whatever follows. *)
Theorem loops_are_never_left_backwards ram0 sched more :
  let c1 := run sched (boot Stage1.main ram0) in
  let c1' := run (sched ++ more) (boot Stage1.main ram0) in
  let c3 := run sched (boot Stage3.main ram0) in
  let c3' := run (sched ++ more) (boot Stage3.main ram0) in
  (Stage1.in_main_loop c1 -> Stage1.in_main_loop c1')
  /\ (Stage3.in_receive c3 \/ Stage3.succeeded c3 ->
      Stage3.in_receive c3' \/ Stage3.succeeded c3')
  /\ ((Stage1.lead_steps <= ticks sched)%nat -> Stage1.in_main_loop c1')
  /\ ((Stage3.lead_steps <= ticks sched)%nat ->
      Stage3.in_receive c3' \/ Stage3.succeeded c3').
Proof.
  cbn zeta. split; [|split; [|split]].
  - intros H. destruct (stage1_trace ram0 sched) as [Hat _].
    destruct (stage1_trace ram0 (sched ++ more)) as [Hat' [_ Hinv']].
    pose proof (stage1_in_loop _ _ Hat H) as Hin.
    exists (fst (run_at Stage1.next (sched ++ more) (Stage1.start ram0))).
    split; [apply (Stage1.inv_wf _ _ _ _ Hinv')|]. split; [|exact Hat'].
    rewrite run_at_app.
    rewrite (surjective_pairing (run_at Stage1.next sched (Stage1.start ram0))).
    apply stage1_in_loop_run. exact Hin.
  - intros H. destruct (stage3_trace ram0 sched) as [Hat _].
    destruct (stage3_trace ram0 (sched ++ more)) as [Hat' [_ Hinv']].
    pose proof (stage3_after_start _ _ Hat H) as Hin.
    apply (stage3_started_phase _ _ Hat' (Stage3.inv_wf _ _ _ _ Hinv')).
    rewrite run_at_app.
    rewrite (surjective_pairing (run_at Stage3.next sched (Stage3.start ram0))).
    apply stage3_started_run. exact Hin.
  - intros Hticks.
    destruct (stage1_trace ram0 (sched ++ more)) as [Hat' [_ Hinv']].
    exists (fst (run_at Stage1.next (sched ++ more) (Stage1.start ram0))).
    split; [apply (Stage1.inv_wf _ _ _ _ Hinv')|]. split; [|exact Hat'].
    apply stage1_in_loop_from. rewrite ticks_app. lia.
  - intros Hticks.
    destruct (stage3_trace ram0 (sched ++ more)) as [Hat' [_ Hinv']].
    apply (stage3_started_phase _ _ Hat' (Stage3.inv_wf _ _ _ _ Hinv')).
    apply stage3_started_from. rewrite ticks_app. lia.
Qed.

(* ===================================================================== *)
(** ** Stage 3: a partial image is stored as far as it has arrived *)
(* ===================================================================== *)

(** Once drained, the loader stays drained as long as nothing arrives. *)
Lemma stage3_drained_step p w :
  drained p w = true ->
  drained (fst (advance Stage3.next (p, w)))
    (snd (advance Stage3.next (p, w))) = true.
Proof.
  unfold drained. intros H. apply andb_prop in H. destruct H as [Hs Hrx].
  rewrite (stage3_started_step p w Hs). cbn [andb].
  unfold advance. cbn [fst snd].
  destruct (rx w) as [|c rest] eqn:E; [clear Hrx | discriminate].
  destruct p as [[] | i [] | i | | | i | i | i | i | i | n [] | n];
    cbn [Stage3.next exec perform fst snd]; rewrite ?E;
    cbn [fst snd log_wave log_poll rx]; rewrite ?E; reflexivity.
Qed.

(** While not drained, every step brings the loader one step closer. *)
Lemma stage3_drain_step ram0 sent p w :
  Stage3.invariant ram0 sent p w ->
  (length sent <= 256)%nat ->
  drained p w = false ->
  drain (fst (advance Stage3.next (p, w))) (snd (advance Stage3.next (p, w)))
  = drain p w - 1.
Proof.
  intros H Hlen. pose proof (Stage3.inv_queued _ _ _ _ H) as Hq.
  pose proof (Stage3.inv_wf _ _ _ _ H) as Hwf.
  pose proof (Stage3.inv_sent _ _ _ _ H) as Hsent.
  pose proof (Stage3.inv_count _ _ _ _ H) as Hcount.
  apply (f_equal (@length byte)) in Hsent. rewrite length_app in Hsent.
  unfold drained, drain, Stage3.lead, Stage3.started, advance. cbn [fst snd].
  destruct p as [[] | i [] | i | | | i | i | i | i | i | n [] | n];
    cbn [Stage3.receiving Stage3.finished orb andb Stage3.announced
         Stage3.wf Stage3.count] in *;
    cbn [Stage3.next exec perform fst snd];
    unfold Stage3.PROGRAM_SIZE in *;
    destruct (rx w) as [|c rest] eqn:Hrx;
    try destruct (Z.ltb_spec (i + 1) 5);
    try destruct (Z.ltb_spec (i + 1) 256);
    cbn [negb orb andb length] in *; try discriminate;
    try (exfalso; apply (Hq eq_refl eq_refl)); intros _;
    cbn [fst snd log_wave log_poll dequeue poke rx Stage3.receiving
         Stage3.finished orb Stage3.rank Stage3.setup_left
         Stage3.blink_left negb];
    rewrite ?Hrx; unfold Stage3.PROGRAM_SIZE;
    try destruct (Z.ltb_spec (i + 1) 256);
    cbn [length negb orb]; try lia.
Qed.

Lemma stage3_drain_drained ram0 sent p w :
  Stage3.invariant ram0 sent p w ->
  drain p w <= 0 -> drained p w = true.
Proof.
  intros H. pose proof (Stage3.inv_wf _ _ _ _ H) as Hwf.
  unfold drained, drain, Stage3.lead, Stage3.started.
  destruct p as [[] | i [] | i | | | i | i | i | i | i | n [] | n];
    cbn [Stage3.receiving Stage3.finished orb andb Stage3.wf Stage3.rank
         Stage3.setup_left Stage3.blink_left] in *;
    unfold Stage3.PROGRAM_SIZE in *;
    try destruct (Z.ltb_spec (i + 1) 256); cbn [negb orb andb];
    destruct (rx w); cbn [length]; try lia; reflexivity.
Qed.

Lemma stage3_drains ram0 k : forall sent p w,
  Stage3.invariant ram0 sent p w ->
  (length sent <= 256)%nat ->
  drain p w <= Z.of_nat k ->
  drained (fst (run_at Stage3.next (repeat Tick k) (p, w)))
    (snd (run_at Stage3.next (repeat Tick k) (p, w))) = true.
Proof.
  assert (Hstay : forall k p w,
    drained p w = true ->
    drained (fst (run_at Stage3.next (repeat Tick k) (p, w)))
      (snd (run_at Stage3.next (repeat Tick k) (p, w))) = true).
  { clear k. induction k as [|k IH]; intros p w Hd;
      cbn [repeat run_at fold_left react_at]; [exact Hd|].
    rewrite (surjective_pairing (advance Stage3.next (p, w))).
    apply IH. apply stage3_drained_step. exact Hd. }
  induction k as [|k IH]; intros sent p w H Hlen Hr;
    cbn [repeat run_at fold_left react_at].
  - cbn [fst snd]. apply (stage3_drain_drained _ _ _ _ H). lia.
  - destruct (drained p w) eqn:Hd.
    + apply (Hstay (S k) p w Hd).
    + pose proof (stage3_drain_step _ _ _ _ H Hlen Hd) as Hstep.
      rewrite (surjective_pairing (advance Stage3.next (p, w))).
      apply (IH sent).
      * apply stage3_advance. exact H.
      * exact Hlen.
      * lia.
Qed.

Lemma stage3_drain_bound ram0 sent p w :
  Stage3.invariant ram0 sent p w ->
  drain p w <= Z.of_nat (drain_steps (length sent)).
Proof.
  intros H. pose proof (Stage3.inv_wf _ _ _ _ H) as Hwf.
  pose proof (Stage3.inv_sent _ _ _ _ H) as Hsent.
  apply (f_equal (@length byte)) in Hsent. rewrite length_app in Hsent.
  unfold drain, drain_steps, Stage3.lead, Stage3.started.
  destruct p as [[] | i [] | i | | | i | i | i | i | i | n [] | n];
    cbn [Stage3.receiving Stage3.finished orb Stage3.wf Stage3.rank
         Stage3.setup_left Stage3.blink_left] in *;
    unfold Stage3.PROGRAM_SIZE in *;
    try destruct (Z.ltb_spec (i + 1) 256); cbn [negb orb]; lia.
Qed.

Lemma buffer_firstn ram0 bytes w :
  (length bytes <= 256)%nat ->
  (forall a, ram w a = Stage3.loaded ram0 bytes a) ->
  firstn (length bytes) (Stage3.buffer w) = bytes.
Proof.
  intros Hlen Hram. apply nth_error_ext. intros k.
  destruct (Nat.ltb_spec k (length bytes)) as [Hk | Hk].
  - rewrite nth_error_firstn.
    destruct (Nat.ltb_spec k (length bytes)); [|lia].
    unfold Stage3.buffer. rewrite nth_error_map, nth_error_seq.
    destruct (Nat.ltb_spec k (Z.to_nat Stage3.PROGRAM_SIZE));
      [|unfold Stage3.PROGRAM_SIZE in *; lia].
    cbn [option_map Nat.add]. rewrite Hram. symmetry.
    apply loaded_inside. exact Hk.
  - rewrite (proj2 (nth_error_None bytes k)) by exact Hk.
    apply nth_error_None. rewrite length_firstn. lia.
Qed.

(** X7.  A transfer of at most 256 bytes that stops, at whatever point:
    once the line has been silent for [drain_steps N] steps after the [N]
    bytes sent, the loader has read and stored all of them -- the queue is
    empty, the writes are those of the [N] bytes in order, and the first
    [N] bytes of the buffer are the bytes sent -- and with fewer than 256
    bytes it stands in the receive loop, waiting for the next one.  A
    byte is stored as soon as it is read, not when the image is
    complete. *)
Theorem loader_stores_what_has_arrived ram0 sched k :
  (length (arrivals sched) <= 256)%nat ->
  (drain_steps (length (arrivals sched)) <= k)%nat ->
  let c := run (sched ++ repeat Tick k) (boot Stage3.main ram0) in
  rx (env c) = []
  /\ taken (env c) = arrivals sched
  /\ stores (env c) = Stage3.slots (arrivals sched)
  /\ firstn (length (arrivals sched)) (Stage3.buffer (env c)) = arrivals sched
  /\ ((length (arrivals sched) < 256)%nat -> Stage3.in_receive c).
Proof.
  intros Hlen Hk. cbn zeta.
  destruct (stage3_trace ram0 (sched ++ repeat Tick k)) as [Hat [He Hinv]].
  destruct (stage3_trace ram0 sched) as [_ [_ Hinv0]].
  rewrite He. rewrite run_at_app in *.
  set (pw0 := run_at Stage3.next sched (Stage3.start ram0)) in *.
  rewrite (surjective_pairing pw0) in Hat, Hinv |- *.
  assert (Hd : drained (fst (run_at Stage3.next (repeat Tick k)
                               (fst pw0, snd pw0)))
                 (snd (run_at Stage3.next (repeat Tick k)
                         (fst pw0, snd pw0))) = true).
  { apply (stage3_drains ram0 k (arrivals sched)); auto.
    pose proof (stage3_drain_bound _ _ _ _ Hinv0). lia. }
  set (pw := run_at Stage3.next (repeat Tick k) (fst pw0, snd pw0)) in *.
  rewrite arrivals_app, arrivals_idle, app_nil_r in Hinv.
  unfold drained in Hd. apply andb_prop in Hd. destruct Hd as [Hst Hrx].
  assert (Hrx' : rx (snd pw) = []) by (destruct (rx (snd pw)); [auto | discriminate]).
  pose proof (Stage3.inv_sent _ _ _ _ Hinv) as Hsent.
  rewrite Hrx', app_nil_r in Hsent.
  split; [exact Hrx'|]. split; [auto|].
  split; [rewrite Hsent; apply (Stage3.inv_stores _ _ _ _ Hinv)|].
  split.
  - apply (buffer_firstn ram0); [exact Hlen|].
    rewrite Hsent. apply (Stage3.inv_ram _ _ _ _ Hinv).
  - intros Hlt. pose proof (Stage3.inv_wf _ _ _ _ Hinv) as Hwf.
    exists (fst pw). split; [exact Hwf|]. split; [|exact Hat].
    unfold Stage3.started in Hst.
    destruct (Stage3.finished (fst pw)) eqn:Hf;
      [|rewrite orb_false_r in Hst; exact Hst].
    apply (stage3_finished_count _ Hwf) in Hf.
    pose proof (Stage3.inv_count _ _ _ _ Hinv) as Hc.
    rewrite <- Hsent, Hf in Hc. unfold Stage3.PROGRAM_SIZE in Hc. lia.
Qed.

(** Three bytes, the last one sent after the loop has started, and the
    line silent for 42 steps. *)
Lemma loader_stores_what_has_arrived_witness :
  (length (arrivals (Arrive x41 :: Arrive x42 :: repeat Tick 38
                       ++ [Arrive x43])) <= 256)%nat
  /\ (drain_steps
        (length (arrivals (Arrive x41 :: Arrive x42 :: repeat Tick 38
                             ++ [Arrive x43]))) <= 42)%nat
  /\ let c := run ((Arrive x41 :: Arrive x42 :: repeat Tick 38
                      ++ [Arrive x43]) ++ repeat Tick 42)
                (boot Stage3.main (fun _ => x00)) in
     rx (env c) = []
     /\ taken (env c)
        = arrivals (Arrive x41 :: Arrive x42 :: repeat Tick 38 ++ [Arrive x43])
     /\ stores (env c)
        = Stage3.slots
            (arrivals (Arrive x41 :: Arrive x42 :: repeat Tick 38
                         ++ [Arrive x43]))
     /\ firstn
          (length (arrivals (Arrive x41 :: Arrive x42 :: repeat Tick 38
                               ++ [Arrive x43])))
          (Stage3.buffer (env c))
        = arrivals (Arrive x41 :: Arrive x42 :: repeat Tick 38 ++ [Arrive x43])
     /\ ((length (arrivals (Arrive x41 :: Arrive x42 :: repeat Tick 38
                              ++ [Arrive x43])) < 256)%nat ->
         Stage3.in_receive c).
Proof.
  split; [vm_compute; lia|]. split; [vm_compute; lia|].
  apply (loader_stores_what_has_arrived (fun _ => x00)
           (Arrive x41 :: Arrive x42 :: repeat Tick 38 ++ [Arrive x43]) 42);
    vm_compute; lia.
Defined.

(* ===================================================================== *)
(** ** The time slept before the serial line is looked at *)
(* ===================================================================== *)

Lemma held_app w1 w2 : held (w1 ++ w2) = held w1 + held w2.
Proof.
  induction w1 as [|[g v | ms] w1 IH]; cbn [app held]; lia.
Qed.

Lemma held_periods gpio ms n :
  held (periods gpio ms n) = 2 * ms * Z.of_nat n.
Proof.
  induction n as [|n IH]; cbn [periods app held]; lia.
Qed.

Lemma held_period_before gpio ms b :
  0 <= ms -> 0 <= held (period_before gpio ms b) <= ms.
Proof. destruct b; cbn [period_before held]; lia. Qed.

Lemma held_toggles gpio n : forall level, held (toggles gpio level n) = 0.
Proof. induction n as [|n IH]; intros level; cbn [toggles held]; auto. Qed.

Lemma stage3_held_started p :
  Stage3.wf p -> Stage3.started p = true ->
  700 <= held (Stage3.wave_of p)
  /\ (Stage3.receiving p = true -> held (Stage3.wave_of p) = 700).
Proof.
  assert (Hs : held Stage3.solid_wave = 700) by reflexivity.
  unfold Stage3.started.
  destruct p as [[] | i [] | i | | | i | i | i | i | i | n b | n];
    cbn [Stage3.receiving Stage3.finished orb Stage3.wave_of];
    try discriminate; intros _ _; rewrite ?held_app, ?held_periods, ?Hs;
    try (split; [lia | reflexivity]).
  - pose proof (held_period_before Stage3.LED_PIN 500 b). split; [lia|].
    discriminate.
  - split; [lia | discriminate].
Qed.

Lemma stage1_held p :
  Stage1.wf p ->
  held (Stage1.wave_of p) <= 600
  /\ (Stage1.in_loop p = true -> held (Stage1.wave_of p) = 600).
Proof.
  assert (Hs : held Stage1.ready_wave = 600) by reflexivity.
  destruct p as [[] | i b | i | n s | n s | n s b | n s b | n s];
    cbn [Stage1.wf Stage1.in_loop Stage1.wave_of]; intros Hwf;
    rewrite ?held_app, ?held_periods, ?held_toggles, ?Hs;
    try (split; [lia | reflexivity]); try (split; [cbn; lia | discriminate]).
  - pose proof (held_period_before Stage1.LED_PIN 100 b). split; [lia|].
    discriminate.
  - split; [lia|]. destruct (Z.ltb_spec (i + 1) 3); [discriminate|]. lia.
Qed.

(** X8.  The time slept, as the sum of the [sleep_ms] calls made, at
    every moment of every run.  The echo test sleeps 600 ms in all: it has
    slept exactly that long when it first polls the UART, and its main
    loop never sleeps.  The loader has slept at least 700 ms when it first
    polls the UART, and exactly 700 ms throughout the receive loop, which
    never sleeps: bytes sent earlier are looked at only then.  In terms of
    steps: the echo test has slept 600 ms at every moment from step
    [Stage1.lead_steps] on, the loader 700 ms at every moment from step
    [Stage3.lead_steps] on at which fewer than 256 bytes have been read. *)
Theorem time_slept_before_first_poll ram0 sched :
  let c1 := run sched (boot Stage1.main ram0) in
  let c3 := run sched (boot Stage3.main ram0) in
  (held (wave (env c1)) <= 600
   /\ (polls (env c1) <> [] -> held (wave (env c1)) = 600))
  /\ (polls (env c3) <> [] -> 700 <= held (wave (env c3)))
  /\ (Stage3.in_receive c3 -> held (wave (env c3)) = 700)
  /\ ((Stage1.lead_steps <= ticks sched)%nat -> held (wave (env c1)) = 600)
  /\ ((Stage3.lead_steps <= ticks sched)%nat ->
      (length (taken (env c3)) < 256)%nat ->
      held (wave (env c3)) = 700).
Proof.
  cbn zeta. destruct (stage1_trace ram0 sched) as [_ [He1 H1]].
  destruct (stage3_trace ram0 sched) as [Hat [He3 H3]].
  rewrite He1, He3.
  pose proof (stage1_in_loop_from ram0 sched) as Hfrom1.
  pose proof (stage3_started_from ram0 sched) as Hfrom3.
  set (p1 := run_at Stage1.next sched (Stage1.start ram0)) in *.
  set (p3 := run_at Stage3.next sched (Stage3.start ram0)) in *.
  split; [|split; [|split; [|split]]].
  - destruct (stage1_held _ (Stage1.inv_wf _ _ _ _ H1)) as [Hle Heq].
    rewrite (Stage1.inv_wave _ _ _ _ H1). split; [exact Hle|].
    intros Hp. apply Heq.
    destruct (Stage1.in_loop (fst p1)) eqn:E; [reflexivity|].
    elim Hp. apply (Stage1.inv_quiet _ _ _ _ H1 E).
  - intros Hp. rewrite (Stage3.inv_wave _ _ _ _ H3).
    apply (stage3_held_started _ (Stage3.inv_wf _ _ _ _ H3)).
    destruct (Stage3.started (fst p3)) eqn:E; [reflexivity|].
    elim Hp. apply (Stage3.inv_quiet _ _ _ _ H3 E).
  - intros Hr. rewrite (Stage3.inv_wave _ _ _ _ H3).
    pose proof (stage3_after_start _ _ Hat (or_introl Hr)) as Hst.
    apply (stage3_held_started _ (Stage3.inv_wf _ _ _ _ H3) Hst).
    destruct Hr as [q [_ [Hq Hs]]].
    rewrite (proj2 (stage3_same_phase _ _ _ Hat Hs)). exact Hq.
  - intros Hticks. rewrite (Stage1.inv_wave _ _ _ _ H1).
    apply (stage1_held _ (Stage1.inv_wf _ _ _ _ H1)). apply Hfrom1, Hticks.
  - intros Hticks Htaken. rewrite (Stage3.inv_wave _ _ _ _ H3).
    pose proof (Stage3.inv_wf _ _ _ _ H3) as Hwf.
    rewrite (Stage3.inv_count _ _ _ _ H3) in Htaken.
    apply (stage3_held_started _ Hwf (Hfrom3 Hticks)).
    apply (stage3_started_receiving _ Hwf (Hfrom3 Hticks) Htaken).
Qed.

(* ===================================================================== *)
(** ** The pins that are driven *)
(* ===================================================================== *)

Lemma level_in_periods gpio ms n g v :
  In (Level g v) (periods gpio ms n) -> g = gpio.
Proof.
  induction n as [|n IH]; cbn [periods app In]; [tauto|].
  intros [H | [H | [H | [H | H]]]]; try congruence. auto.
Qed.

Lemma level_in_period_before gpio ms b g v :
  In (Level g v) (period_before gpio ms b) -> g = gpio.
Proof.
  destruct b; cbn [period_before In]; intuition congruence.
Qed.

Lemma level_in_toggles gpio n g v : forall level,
  In (Level g v) (toggles gpio level n) -> g = gpio.
Proof.
  induction n as [|n IH]; intros level; cbn [toggles In]; [tauto|].
  intros [H | H]; [congruence | eauto].
Qed.

Lemma stage1_wave_pins p g v :
  In (Level g v) (Stage1.wave_of p) -> g = Stage1.LED_PIN.
Proof.
  destruct p as [[] | i b | i | n s | n s | n s b | n s b | n s];
    unfold Stage1.wave_of, Stage1.ready_wave; cbn [In]; try tauto;
    rewrite ?in_app_iff; intros H;
    repeat match goal with
           | H : _ \/ _ |- _ => destruct H as [H | H]
           end;
    first [ apply level_in_periods in H
          | apply level_in_period_before in H
          | apply level_in_toggles in H ]; exact H.
Qed.

Lemma stage3_wave_pins p g v :
  In (Level g v) (Stage3.wave_of p) -> g = Stage3.LED_PIN.
Proof.
  assert (Hs : In (Level g v) Stage3.solid_wave -> g = Stage3.LED_PIN).
  { unfold Stage3.solid_wave. rewrite in_app_iff. cbn [In].
    intros [H | [H | [H | H]]]; try congruence; try tauto.
    apply level_in_periods in H. exact H. }
  destruct p as [[] | i b | i | | | i | i | i | i | i | n b | n];
    cbn [Stage3.wave_of In]; try tauto; try exact Hs;
    rewrite ?in_app_iff; cbn [In]; intros H;
    repeat match goal with
           | H : _ \/ _ |- _ => destruct H as [H | H]
           end;
    try congruence; try tauto; auto;
    first [ apply level_in_periods in H
          | apply level_in_period_before in H ]; exact H.
Qed.

(** X9.  The only pin either program ever drives is its LED pin (GPIO
    25): at every moment of every run, every level written so far was
    written to [LED_PIN]; in particular the UART receive pin is handed to
    the UART at line 26 (line 31 in the loader) and never written. *)
Theorem only_the_led_pin_is_driven ram0 sched :
  let c1 := run sched (boot Stage1.main ram0) in
  let c3 := run sched (boot Stage3.main ram0) in
  (forall g v, In (Level g v) (wave (env c1)) -> g = Stage1.LED_PIN)
  /\ (forall g v, In (Level g v) (wave (env c3)) -> g = Stage3.LED_PIN).
Proof.
  cbn zeta. destruct (stage1_trace ram0 sched) as [_ [He1 H1]].
  destruct (stage3_trace ram0 sched) as [_ [He3 H3]].
  rewrite He1, He3. split; intros g v Hin.
  - rewrite (Stage1.inv_wave _ _ _ _ H1) in Hin.
    apply (stage1_wave_pins _ _ _ Hin).
  - rewrite (Stage3.inv_wave _ _ _ _ H3) in Hin.
    apply (stage3_wave_pins _ _ _ Hin).
Qed.
